(** * karellen.nomw: process runner, Kubernetes client cache and server
      version parsing

    A shallow embedding of [src/main/python/karellen/nomw/utils.py] and of
    the cache commands of [src/main/python/karellen/nomw/app.py].

    - [Version]: the string handling of [K8SClientWrapper._setup_client].
    - [Cache]: [get_cache_dir], [install_python_k8s_client],
      [clear_k8s_cache] and [K8SClientWrapper.setup_client] over an explicit
      file system and installer log.
    - [Proc]: [ProcessRunner] with its three stream pumps as a labelled
      transition system driven by the scheduler and the child process. *)

From Stdlib Require Import Ascii String DecimalString.
From Stdlib Require DecimalPos DecimalZ.
From stdpp Require Import base list strings gmap.

Open Scope string_scope.
Open Scope list_scope.

(** Python exceptions raised by the modelled code. *)
Inductive result (E A : Type) : Type :=
| Ok (a : A)
| Raise (e : E).
Arguments Ok {E A} a.
Arguments Raise {E A} e.

(* ================================================================== *)
(** ** Server version strings *)
(* ================================================================== *)

Module Version.

(** [s.split(sep)] for a one-character separator (the source only splits
    on the literals "-" and "."). *)
Fixpoint split (sep : ascii) (s : string) : list string :=
  match s with
  | EmptyString => [EmptyString]
  | String c s' =>
      if Ascii.eqb c sep then EmptyString :: split sep s'
      else match split sep s' with
           | [] => [String c EmptyString]
           | h :: t => String c h :: t
           end
  end.

(** [needle in hay]. *)
Fixpoint contains (needle hay : string) : bool :=
  String.prefix needle hay
  || match hay with
     | EmptyString => false
     | String _ hay' => contains needle hay'
     end.

(** [s[1:]]. *)
Definition tail (s : string) : string :=
  match s with
  | EmptyString => EmptyString
  | String _ s' => s'
  end.

(** [l[0]] of a list of strings; [split] never returns the empty list. *)
Definition first (l : list string) : string :=
  match l with
  | [] => EmptyString
  | h :: _ => h
  end.

(** The local variable [git_version] of [_setup_client]:
<<
    if "-eks-" in version.git_version:
        git_version = version.git_version.split("-")[0]
    else:
        git_version = version.git_version
>> *)
Definition git_version (raw : string) : string :=
  if contains "-eks-" raw then first (split "-" raw) else raw.

(** [self.server_version = git_version[1:].split(".")]. *)
Definition server_version (raw : string) : list string :=
  split "." (tail (git_version raw)).

(** [self.server_git_version = git_version]. *)
Definition server_git_version (raw : string) : string :=
  git_version raw.

(** The text in front of the first occurrence of [sep] (all of [s] when
    there is none): what is left once "the suffix after the first [sep]"
    is stripped.  Written from the specification, to be compared with
    [first (split sep s)]. *)
Fixpoint strip_suffix (sep : ascii) (s : string) : string :=
  match s with
  | EmptyString => EmptyString
  | String c s' => if Ascii.eqb c sep then EmptyString else String c (strip_suffix sep s')
  end.

(** Whether the character occurs in the string. *)
Fixpoint has_char (c : ascii) (s : string) : bool :=
  match s with
  | EmptyString => false
  | String d s' => Ascii.eqb d c || has_char c s'
  end.

(** Reading of a version component as a number ([int(component)]), used
    only to relate the stored strings to the numbers of the
    specification. *)
Definition numeric (component : string) : option Z :=
  match NilZero.uint_of_string component with
  | Some d => Some (Z.of_N (N.of_uint d))
  | None => None
  end.

End Version.

(* ================================================================== *)
(** ** The client cache and the client wrapper *)
(* ================================================================== *)

Module Cache.

(** A [pathlib.Path], as the list of its components below the root. *)
Definition path := list string.

(** [p / name], for a name that is a single component or empty (pathlib
    drops an empty segment).  Names with a separator, "." or ".." are
    outside this model; the callers pass an [int] or a field of a string
    split on ".". *)
Definition path_join (p : path) (name : string) : path :=
  if decide (name = "") then p else p ++ [name].

(** [str(p)]. *)
Definition path_str (p : path) : string :=
  match p with
  | [] => "/"
  | _ => foldr (λ c acc, "/" +:+ c +:+ acc) "" p
  end.

(** The file system: the set of paths that exist. *)
Abbreviation fsys := (gset path).

(** [p.exists()]. *)
Definition path_exists (fs : fsys) (p : path) : bool := bool_decide (p ∈ fs).

(** [p] and its ancestors, root excluded. *)
Definition ancestors (p : path) : list path :=
  (λ n, take n p) <$> seq 1 (length p).

Inductive exn :=
| CalledProcessError (returncode : Z) (cmd : list string)
| FileExistsError (p : path)
| FileNotFoundError (p : path)
| IndexError.

(** [p.mkdir(parents=..., exist_ok=...)]. *)
Definition mkdir (parents exist_ok : bool) (p : path) (fs : fsys) : result exn fsys :=
  if path_exists fs p then
    if exist_ok then Ok fs else Raise (FileExistsError p)
  else if parents then Ok (fs ∪ list_to_set (ancestors p))
  else if bool_decide (length p ≤ 1)%nat || path_exists fs (removelast p)
       then Ok (fs ∪ {[ p ]})
       else Raise (FileNotFoundError p).

(** [shutil.rmtree(p)]: [p] and everything below it. *)
Definition rmtree (p : path) (fs : fsys) : fsys :=
  filter (λ q, ¬ p `prefix_of` q) fs.

(** The [package_major] argument: an [int] from the command line
    ([--pre-cache-k8s-client]) or a [str] field of the server version. *)
Inductive major :=
| MInt (n : Z)
| MStr (s : string).

(** [str(package_major)]. *)
Definition str (m : major) : string :=
  match m with
  | MInt n => NilZero.string_of_int (Z.to_int n)
  | MStr s => s
  end.

(** What the code takes from its platform and its cluster. *)
Class Platform := {
  (** [Path(user_cache_dir("nomw"))] *)
  app_cache_dir : path;
  (** [sys.executable] *)
  sys_executable : string;
  (** the installer child process: its exit code and what it leaves on
      the file system *)
  installer : list string → fsys → Z * fsys;
  (** [client.VersionApi(...).get_code().git_version] *)
  cluster_git_version : string;
  (** [importlib.metadata.version("kubernetes")] under a given [sys.path] *)
  pkg_version : list string → string;
}.

(** The process-wide state the code reads and writes. *)
Record world := World {
  fs : fsys;
  (** command lines of the installer processes run so far *)
  installs : list (list string);
  sys_path : list string;
  sys_modules : list string;
}.

(** Computations over a state [S] that return or raise; the state
    survives an exception. *)
Definition M (S A : Type) : Type := S → result exn A * S.

#[global] Instance M_ret {S} : MRet (M S) := λ A a s, (Ok a, s).
#[global] Instance M_bind {S} : MBind (M S) := λ A B f m s,
  match m s with
  | (Ok a, s') => f a s'
  | (Raise e, s') => (Raise e, s')
  end.

Definition raise {S A} (e : exn) : M S A := λ s, (Raise e, s).
Definition get_fs : M world fsys := λ w, (Ok (fs w), w).
Definition put_fs (f : fsys) : M world unit := λ w,
  (Ok tt, World f (installs w) (sys_path w) (sys_modules w)).
Definition lift_fs (op : fsys → result exn fsys) : M world unit := λ w,
  match op (fs w) with
  | Ok f => put_fs f w
  | Raise e => (Raise e, w)
  end.

Section WithPlatform.
Context `{Platform}.

Definition get_app_cache_dir : path := app_cache_dir.

(**
<<
def get_cache_dir(category: str, sub_category: str = None):
    config_dir = get_app_cache_dir() / category
    if sub_category:
        config_dir = config_dir / sub_category
    if not config_dir.exists():
        config_dir.mkdir(parents=True)
    return config_dir
>> *)
Definition get_cache_dir (category : string) (sub_category : option string) : M world path :=
  let config_dir := path_join get_app_cache_dir category in
  let config_dir :=
    match sub_category with
    | Some sub => path_join config_dir sub
    | None => config_dir
    end in
  f ← get_fs;
  (if negb (path_exists f config_dir)
   then lift_fs (mkdir true false config_dir)
   else mret tt);;
  mret config_dir.

(** The command line of the installer. *)
Definition pip_command (package_major : major) (target : path) : list string :=
  [sys_executable; "-m"; "pip"; "install"; "--no-deps"; "--no-input"; "--pre";
   "--root-user-action=ignore"; "--break-system-packages";
   "--disable-pip-version-check"; "--target"; path_str target;
   "kubernetes~=" +:+ str package_major +:+ ".0"].

(** [run(argv, logger_stdout, logger_stderr).wait()] with [run =
    ProcessRunner]: the child runs to its end, and [wait] (with its default
    [fail=True]) raises [CalledProcessError] on a nonzero exit code. *)
Definition run (argv : list string) : M world Z := λ w,
  let '(rc, f) := installer argv (fs w) in
  let w' := World f (installs w ++ [argv]) (sys_path w) (sys_modules w) in
  if bool_decide (rc = 0%Z) then (Ok rc, w')
  else (Raise (CalledProcessError rc argv), w').

(**
<<
def install_python_k8s_client(run, package_major, logger, logger_stdout, logger_stderr):
    cache_dir = get_cache_dir("python")
    package_major_dir = cache_dir / str(package_major)
    package_major_dir_str = str(package_major_dir)
    if not package_major_dir.exists():
        package_major_dir.mkdir(parents=True, exist_ok=True)
        run([...], logger_stdout, logger_stderr).wait()
    return package_major_dir
>> *)
Definition install_python_k8s_client (run : list string → M world Z)
    (package_major : major) : M world path :=
  cache_dir ← get_cache_dir "python" None;
  let package_major_dir := path_join cache_dir (str package_major) in
  f ← get_fs;
  (if negb (path_exists f package_major_dir)
   then lift_fs (mkdir true true package_major_dir);;
        run (pip_command package_major package_major_dir);;
        mret tt
   else mret tt);;
  mret package_major_dir.

(** [clear_k8s_cache] with [_clear_cache] of app.py:
<<
    cache_dir = get_cache_dir("python")
    if cache_dir.exists():
        rmtree(cache_dir)
>> *)
Definition _clear_cache (cache_dir : path) : M world unit :=
  f ← get_fs;
  if path_exists f cache_dir then put_fs (rmtree cache_dir f) else mret tt.

Definition clear_k8s_cache : M world unit :=
  cache_dir ← get_cache_dir "python" None;
  _clear_cache cache_dir.

(** The fields of [K8SClientWrapper]; [client] only records that an
    [ApiClient] was built. *)
Record K8SClientWrapper := Wrapper {
  server_version : option (list string);
  server_git_version : option string;
  client : bool;
  embedded_pkg_version : list string;
}.

(** A wrapper object in its world: the methods update the object in
    place, also when they end up raising. *)
Definition obj : Type := K8SClientWrapper * world.

Definition in_world {A} (m : M world A) : M obj A := λ o,
  let '(r, w) := m o.2 in (r, (o.1, w)).
Definition get_self : M obj K8SClientWrapper := λ o, (Ok o.1, o).
Definition put_self (self : K8SClientWrapper) : M obj unit := λ o, (Ok tt, (self, o.2)).

(** [pkg_version("kubernetes").split(".")]. *)
Definition _get_kubernetes_client_version : M world (list string) := λ w,
  (Ok (Version.split "." (pkg_version (sys_path w))), w).

(** [K8SClientWrapper()]. *)
Definition new_wrapper : M world K8SClientWrapper :=
  v ← _get_kubernetes_client_version;
  mret (Wrapper None None false v).

(** [_setup_client]; loading the cluster configuration and the version
    query are taken to succeed. *)
Definition _setup_client : M obj unit :=
  self ← get_self;
  put_self (Wrapper (Some (Version.server_version cluster_git_version))
                    (Some (Version.server_git_version cluster_git_version))
                    true (embedded_pkg_version self)).

(** [if not self.server_version]: [None] and the empty list are false. *)
Definition is_set (v : option (list string)) : bool :=
  match v with
  | Some (_ :: _) => true
  | _ => false
  end.

(** [k == "kubernetes" or k.startswith("kubernetes.")]. *)
Definition is_kubernetes_module (k : string) : bool :=
  bool_decide (k = "kubernetes") || String.prefix "kubernetes." k.

(** The loop over [sys.modules] and [sys.path.insert(0, str(pkg_dir))]. *)
Definition switch_modules (pkg_dir : path) : M world unit := λ w,
  (Ok tt, World (fs w) (installs w)
            (path_str pkg_dir :: sys_path w)
            (filter (λ k, ¬ is_kubernetes_module k) (sys_modules w))).

(**
<<
    def setup_client(self):
        if not self.server_version:
            self._setup_client()
        server_minor = self.server_version[1]
        pkg_dir = install_python_k8s_client(run, server_minor, logger, stdout_logger, stderr_logger)
        ... del sys.modules[k] ...
        sys.path.insert(0, str(pkg_dir))
        self.embedded_pkg_version = self._get_kubernetes_client_version()
        self._setup_client()
>>
    Logging is left out. *)
Definition setup_client : M obj unit :=
  self ← get_self;
  (if negb (is_set (server_version self)) then _setup_client else mret tt);;
  self ← get_self;
  server_minor ← match server_version self ≫= (λ v, v !! 1%nat) with
                 | Some m => mret m
                 | None => raise IndexError
                 end;
  pkg_dir ← in_world (install_python_k8s_client run (MStr server_minor));
  in_world (switch_modules pkg_dir);;
  v ← in_world _get_kubernetes_client_version;
  self ← get_self;
  put_self (Wrapper (server_version self) (server_git_version self) (client self) v);;
  _setup_client.

(** The directory of the cached clients, [get_cache_dir("python")], and
    the directory of one major version in it. *)
Definition python_cache_dir : path := path_join get_app_cache_dir "python".
Definition major_dir (package_major : major) : path :=
  path_join python_cache_dir (str package_major).

(** The installer removes nothing that exists. *)
Definition installer_keeps : Prop :=
  ∀ argv (f : fsys) p, p ∈ f → p ∈ (installer argv f).2.

End WithPlatform.

(** A platform for the examples: a Linux cache directory and an
    installer that succeeds. *)
Definition example_platform (git_version : string) : Platform := {|
  app_cache_dir := ["home"; "nomw"; ".cache"; "nomw"];
  sys_executable := "/usr/bin/python3";
  installer := λ _ f, (0%Z, f);
  cluster_git_version := git_version;
  pkg_version := λ _, "29.0.0";
|}.

Definition platform_1_30_2 : Platform := example_platform "v1.30.2".

(** An empty world. *)
Definition empty_world : world := World ∅ [] [] [].

(** The world with another file system. *)
Definition with_fs (f : fsys) (w : world) : world :=
  World f (installs w) (sys_path w) (sys_modules w).

(** [p] with its ancestors, made if [p] is missing. *)
Definition ensure_dir (p : path) (f : fsys) : fsys :=
  if path_exists f p then f else f ∪ list_to_set (ancestors p).

End Cache.

(* ================================================================== *)
(** ** The process runner *)
(* ================================================================== *)

Module Proc.

(** What a pipe carries: bytes, or text once decoded. *)
Definition data := list ascii.

Definition newline : ascii := "010"%char.

(** The characters of a string literal. *)
Definition text (s : string) : data := list_ascii_of_string s.

(** *** Stream arguments *)

(** The [stdout=], [stderr=] and [stdin=] arguments of [Popen]: one of the
    integers of [subprocess] or a file object. *)
Inductive popen_arg :=
| PopenInt (n : Z)
| PopenFile (fd : nat).

Definition PIPE : popen_arg := PopenInt (-1).
Definition DEVNULL : popen_arg := PopenInt (-3).

#[global] Instance popen_arg_eq_dec : EqDecision popen_arg.
Proof. solve_decision. Defined.

(** [stdout], [stderr]: [Union[None, int, IO, Callable[[AnyStr], None]]]. *)
Inductive out_arg :=
| OutNone
| OutInt (n : Z)
| OutFile (fd : nat)
| OutCallable.

(** [stdin]: [Union[None, int, bytes, str, IO, Callable[[], Iterable]]];
    a callable is given by what it yields. *)
Inductive in_arg :=
| InNone
| InInt (n : Z)
| InFile (fd : nat)
| InBlob (d : data)
| InCallable (chunks : list data).

(** [PIPE if isinstance(stdout, Callable) else
     (stdout if stdout is not None else DEVNULL)]. *)
Definition popen_out (a : out_arg) : popen_arg :=
  match a with
  | OutCallable => PIPE
  | OutNone => DEVNULL
  | OutInt n => PopenInt n
  | OutFile fd => PopenFile fd
  end.

(** [PIPE if isinstance(stdin, (Callable, bytes, str)) else
     (stdin if stdin is not None else DEVNULL)]. *)
Definition popen_in (a : in_arg) : popen_arg :=
  match a with
  | InBlob _ | InCallable _ => PIPE
  | InNone => DEVNULL
  | InInt n => PopenInt n
  | InFile fd => PopenFile fd
  end.

(** [isinstance(stdout, Callable)]. *)
Definition out_is_callable (a : out_arg) : bool :=
  match a with OutCallable => true | _ => false end.

(** [isinstance(stdin, (Callable, bytes, str))]. *)
Definition in_is_source (a : in_arg) : bool :=
  match a with InBlob _ | InCallable _ => true | _ => false end.

(** What the stdin pump passes to [pipe.write], call by call: the blob in
    one piece, or the items of [source()] one after the other. *)
Definition source_units (a : in_arg) : list data :=
  match a with
  | InBlob d => [d]
  | InCallable chunks => chunks
  | _ => []
  end.

(** *** Greenlets *)

(** A task made by [gevent.spawn]: scheduled or running, or dead after its
    function returned or raised. *)
Inductive greenlet := Active | Finished | Failed.

(** The truth value of an attribute holding [None] or a greenlet.  A
    gevent [Greenlet] is true while it is started and not yet dead. *)
Definition truthy (g : option greenlet) : bool :=
  match g with
  | Some Active => true
  | _ => false
  end.

(** *** Pipes and their pumps *)

(** The parent's side of stdout or stderr. *)
Record reader_end := ReaderEnd {
  r_arg : popen_arg;
  (** everything the child has written into the pipe so far *)
  r_written : data;
  (** written and not yet read by the pump *)
  r_pending : data;
  (** the child's write end is closed *)
  r_closed : bool;
  (** the calls [sink_func(unit)] made so far, oldest first *)
  r_calls : list data;
  r_task : option greenlet;
}.

(** The parent's side of stdin. *)
Record writer_end := WriterEnd {
  w_arg : popen_arg;
  (** what the pump still has to write *)
  w_source : list data;
  (** everything written into the pipe so far *)
  w_delivered : data;
  (** [pipe.close()] happened: the child reads end of file *)
  w_closed : bool;
  (** the child's read end is closed *)
  w_rclosed : bool;
  w_task : option greenlet;
}.

(** The head of the pipe up to and including its first newline. *)
Fixpoint readline (s : data) : option (data * data) :=
  match s with
  | [] => None
  | c :: s' =>
      if Ascii.eqb c newline then Some ([c], s')
      else match readline s' with
           | Some (l, rest) => Some (c :: l, rest)
           | None => None
           end
  end.

(** What the next round of [for line in pipe] gets: a line and the rest of
    the pipe, the unterminated tail at end of file, the empty text when
    the pipe is exhausted; [None] while the read blocks. *)
Definition pipe_next_line (pending : data) (closed : bool) : option (data * data) :=
  match readline pending with
  | Some lr => Some lr
  | None => if closed then Some (pending, []) else None
  end.

(** [bytearray(16384)]. *)
Definition bufsize : nat := N.to_nat 16384.
Arguments bufsize : simpl never.

(** [pipe.readinto(buf)]: between one byte and a full buffer of what is
    pending, [n] being the amount the operating system hands over;
    nothing at end of file; [None] while the read blocks. *)
Definition pipe_readinto (n : nat) (pending : data) (closed : bool) : option (data * data) :=
  match pending with
  | [] => if closed then Some ([], []) else None
  | _ =>
      let k := Nat.max 1 (Nat.min n (Nat.min bufsize (length pending))) in
      Some (take k pending, drop k pending)
  end.

(** One round of the loop of a reader pump, given the unit it read:
<<
def stream_reader_buf(pipe, sink_func):          def stream_reader_line(pipe, sink_func):
    buf = bytearray(16384)                           for line in pipe:
    while read := pipe.readinto(buf):                    sink_func(line)
        sink_func(memoryview(buf)[:read])
>>
    An empty read ends the loop and the greenlet.  The sink is taken to
    return normally. *)
Definition reader_round (r : reader_end) (read : option (data * data)) : option reader_end :=
  match read with
  | None => None
  | Some ([], _) =>
      Some (ReaderEnd (r_arg r) (r_written r) (r_pending r) (r_closed r) (r_calls r) (Some Finished))
  | Some (unit, rest) =>
      Some (ReaderEnd (r_arg r) (r_written r) rest (r_closed r) (r_calls r ++ [unit]) (r_task r))
  end.

Definition stream_reader_buf (n : nat) (r : reader_end) : option reader_end :=
  reader_round r (pipe_readinto n (r_pending r) (r_closed r)).

Definition stream_reader_line (r : reader_end) : option reader_end :=
  reader_round r (pipe_next_line (r_pending r) (r_closed r)).

(** One step of a writer pump:
<<
def stream_writer_buf(pipe, source):             def stream_writer_text(pipe, source):
    with pipe:                                       with pipe:
        if isinstance(source, Callable):                 if isinstance(source, Callable):
            for buf in source():                             pipe.writelines(source())
                pipe.write(buf)                          else:
        else:                                                pipe.write(source)
            pipe.write(source)
>>
    Each step writes one unit; after the last one the [with] block closes
    the pipe.  Writing to a pipe whose read end is closed raises
    [BrokenPipeError]: the [with] block still closes the pipe and the
    greenlet dies. *)
Definition stream_writer (w : writer_end) : writer_end :=
  match w_source w with
  | [] => WriterEnd (w_arg w) [] (w_delivered w) true (w_rclosed w) (Some Finished)
  | unit :: rest =>
      if w_rclosed w
      then WriterEnd (w_arg w) (w_source w) (w_delivered w) true (w_rclosed w) (Some Failed)
      else WriterEnd (w_arg w) rest (w_delivered w ++ unit) (w_closed w) (w_rclosed w) (w_task w)
  end.

Definition stream_writer_buf := stream_writer.
Definition stream_writer_text := stream_writer.

(** *** The runner *)

Inductive child_state :=
| Running
| Exited (returncode : Z).

Inductive signal := SIGTERM | SIGKILL.

(** A [ProcessRunner] with its child process [_proc], whose three
    standard streams are [p_stdin], [p_stdout] and [p_stderr]. *)
Record ProcessRunner := Runner {
  _safe_args : list string;
  universal_newlines : bool;
  child : child_state;
  (** signals sent to the child so far *)
  signals : list signal;
  p_stdin : writer_end;
  p_stdout : reader_end;
  p_stderr : reader_end;
}.

Definition _stdin_writer (r : ProcessRunner) : option greenlet := w_task (p_stdin r).
Definition _stdout_reader (r : ProcessRunner) : option greenlet := r_task (p_stdout r).
Definition _stderr_reader (r : ProcessRunner) : option greenlet := r_task (p_stderr r).

(** [safe_args or args]. *)
Definition py_or (safe_args : option (list string)) (args : list string) : list string :=
  match safe_args with
  | Some (a :: l) => a :: l
  | _ => args
  end.

(** [ProcessRunner.__init__]: the child is started and a greenlet is
    spawned for each stream that got a callable (or, for stdin, data). *)
Definition init (args : list string) (stdout stderr : out_arg) (stdin : in_arg)
    (safe_args : option (list string)) (universal_newlines : bool) : ProcessRunner :=
  Runner (py_or safe_args args) universal_newlines Running []
    (WriterEnd (popen_in stdin) (source_units stdin) [] false false
       (if in_is_source stdin then Some Active else None))
    (ReaderEnd (popen_out stdout) [] [] false []
       (if out_is_callable stdout then Some Active else None))
    (ReaderEnd (popen_out stderr) [] [] false []
       (if out_is_callable stderr then Some Active else None)).

(** [self._proc.stdout] and the like: the pipe object when the stream is
    piped, [None] otherwise. *)
Inductive pipe_object := ProcStdin | ProcStdout | ProcStderr.

Definition proc_stream (arg : popen_arg) (p : pipe_object) : option pipe_object :=
  if decide (arg = PIPE) then Some p else None.

Inductive exn :=
| RuntimeError (msg : string)
| CalledProcessError (returncode : Z) (cmd : list string) (output : option data)
| TimeoutExpired.

(**
<<
    @property
    def stdout(self):
        if not self._stdout_reader:
            raise RuntimeError("not available")
        return self._proc.stdout
>> *)
Definition stdout (r : ProcessRunner) : result exn (option pipe_object) :=
  if negb (truthy (_stdout_reader r)) then Raise (RuntimeError "not available")
  else Ok (proc_stream (r_arg (p_stdout r)) ProcStdout).

Definition stderr (r : ProcessRunner) : result exn (option pipe_object) :=
  if negb (truthy (_stderr_reader r)) then Raise (RuntimeError "not available")
  else Ok (proc_stream (r_arg (p_stderr r)) ProcStderr).

Definition stdin (r : ProcessRunner) : result exn (option pipe_object) :=
  if negb (truthy (_stdin_writer r)) then Raise (RuntimeError "not available")
  else Ok (proc_stream (w_arg (p_stdin r)) ProcStdin).

(** *** Sinks *)

(** The class [StringIO] of utils.py over its buffer [_buf]. *)
Definition write_untrimmed (buf line : data) : data := buf ++ line.
Definition write_trimmed (buf line : data) : data := buf ++ line ++ [newline].

(** [StringIO(trimmed).write], as chosen in [__init__]. *)
Definition StringIO_write (trimmed : bool) : data → data → data :=
  if trimmed then write_trimmed else write_untrimmed.

(** [out.getvalue()] of a buffer that received the given calls of
    [out.write]; [io.BytesIO] behaves as the untrimmed [StringIO]. *)
Definition getvalue (trimmed : bool) (calls : list data) : data :=
  foldl (StringIO_write trimmed) [] calls.

(** *** wait *)

(** The arguments of a call of [wait], with the time of the call. *)
Record call := Call {
  fail : bool;
  timeout : option nat;
  _out_func : option (ProcessRunner → data);
  started : nat;
}.

(** Where [wait] is blocked inside its [with Timeout] block. *)
Inductive wait_pc :=
| AtProcWait
| AtJoinStdin (retcode : Z)
| AtJoinStdout (retcode : Z)
| AtJoinStderr (retcode : Z).

Inductive waiter_state :=
| NotCalled
| Blocked (c : call) (pc : wait_pc)
| Done (c : call) (r : result exn Z).

(** The body of the [with] block from [pc] on, up to the statement that
    blocks or to the end of the block:
<<
            retcode = self._proc.wait()
            if self._stdin_writer:
                self._stdin_writer.join()
            if self._stdout_reader:
                self._stdout_reader.join()
            if self._stderr_reader:
                self._stderr_reader.join()
>>
    A [join] returns when its greenlet is dead. *)
Definition wait_body (r : ProcessRunner) (pc : wait_pc) : wait_pc + Z :=
  let join_stderr rc :=
    if truthy (_stderr_reader r) then inl (AtJoinStderr rc) else inr rc in
  let join_stdout rc :=
    if truthy (_stdout_reader r) then inl (AtJoinStdout rc) else join_stderr rc in
  let join_stdin rc :=
    if truthy (_stdin_writer r) then inl (AtJoinStdin rc) else join_stdout rc in
  match pc with
  | AtProcWait =>
      match child r with
      | Running => inl AtProcWait
      | Exited rc => join_stdin rc
      end
  | AtJoinStdin rc => join_stdin rc
  | AtJoinStdout rc => join_stdout rc
  | AtJoinStderr rc => join_stderr rc
  end.

(** After the [with] block:
<<
        if fail and retcode:
            output = None
            if _out_func:
                output = _out_func()
            raise CalledProcessError(retcode, self._safe_args, output=output)
        return retcode
>> *)
Definition wait_finish (r : ProcessRunner) (c : call) (retcode : Z) : result exn Z :=
  if fail c && negb (retcode =? 0)%Z
  then Raise (CalledProcessError retcode (_safe_args r)
                (match _out_func c with Some f => Some (f r) | None => None end))
  else Ok retcode.

(** [wait] runs until it blocks or ends. *)
Definition resume (r : ProcessRunner) (c : call) (pc : wait_pc) : waiter_state :=
  match wait_body r pc with
  | inl pc' => Blocked c pc'
  | inr rc => Done c (wait_finish r c rc)
  end.

(** [with Timeout(timeout, TimeoutExpired)]: once [timeout] has passed
    since the block was entered, the timer raises the exception it was
    given in the greenlet that is blocked in [wait]; without a timeout it
    never fires.  Exceptions are told apart by their class; time is
    counted in ticks. *)
Definition expired (c : call) (now : nat) : bool :=
  match timeout c with
  | Some t => bool_decide (started c + t ≤ now)%nat
  | None => false
  end.

(** *** The runner among its child, its pumps and its caller *)

Inductive stream := Stdout | Stderr.

Inductive event :=
(** the child writes to its stdout or stderr *)
| ChildWrite (s : stream) (d : data)
(** the child closes its stdout or stderr *)
| ChildCloseOut (s : stream)
(** the child closes its stdin *)
| ChildCloseIn
(** the child ends *)
| ChildExit (returncode : Z)
(** the scheduler runs a pump for one round *)
| RunStdinWriter
| RunReader (s : stream) (n : nat)
(** one unit of time passes *)
| Tick
(** the caller calls [terminate()] or [kill()] *)
| Terminate
| Kill
(** the caller calls [wait(fail, timeout, _out_func)] *)
| CallWait (fail : bool) (timeout : option nat) (_out_func : option (ProcessRunner → data))
(** the scheduler resumes the greenlet blocked in [wait] *)
| Wake.

Record config := Config {
  runner : ProcessRunner;
  now : nat;
  waiter : waiter_state;
}.

Definition get_reader (s : stream) (r : ProcessRunner) : reader_end :=
  match s with Stdout => p_stdout r | Stderr => p_stderr r end.

Definition set_reader (s : stream) (e : reader_end) (r : ProcessRunner) : ProcessRunner :=
  match s with
  | Stdout => Runner (_safe_args r) (universal_newlines r) (child r) (signals r)
                (p_stdin r) e (p_stderr r)
  | Stderr => Runner (_safe_args r) (universal_newlines r) (child r) (signals r)
                (p_stdin r) (p_stdout r) e
  end.

Definition set_writer (e : writer_end) (r : ProcessRunner) : ProcessRunner :=
  Runner (_safe_args r) (universal_newlines r) (child r) (signals r)
    e (p_stdout r) (p_stderr r).

(** The child's write end is closed. *)
Definition close_reader (e : reader_end) : reader_end :=
  ReaderEnd (r_arg e) (r_written e) (r_pending e) true (r_calls e) (r_task e).

(** The child's read end is closed. *)
Definition close_writer (e : writer_end) : writer_end :=
  WriterEnd (w_arg e) (w_source e) (w_delivered e) (w_closed e) true (w_task e).

(** The child writes [d]; only a pipe is seen by the runner. *)
Definition child_write (d : data) (e : reader_end) : option reader_end :=
  if decide (r_arg e = PIPE) then
    if r_closed e then None
    else Some (ReaderEnd (r_arg e) (r_written e ++ d) (r_pending e ++ d) false
                 (r_calls e) (r_task e))
  else Some e.

(** [spawn(partial(stream_reader_line if universal_newlines else
    stream_reader_buf, pipe, sink))], for one round. *)
Definition run_reader (text : bool) (n : nat) (e : reader_end) : option reader_end :=
  match r_task e with
  | Some Active => if text then stream_reader_line e else stream_reader_buf n e
  | _ => None
  end.

(** [spawn(partial(stream_writer_text if universal_newlines else
    stream_writer_buf, pipe, stdin))], for one step. *)
Definition run_writer (text : bool) (e : writer_end) : option writer_end :=
  match w_task e with
  | Some Active => Some (if text then stream_writer_text e else stream_writer_buf e)
  | _ => None
  end.

(** [terminate] and [kill]: [Popen.send_signal] does nothing once the
    child has been reaped. *)
Definition send_signal (sg : signal) (r : ProcessRunner) : ProcessRunner :=
  match child r with
  | Running => Runner (_safe_args r) (universal_newlines r) (child r) (signals r ++ [sg])
                 (p_stdin r) (p_stdout r) (p_stderr r)
  | Exited _ => r
  end.

Definition terminate := send_signal SIGTERM.
Definition kill := send_signal SIGKILL.

Definition while_running (r : ProcessRunner) (o : option ProcessRunner) : option ProcessRunner :=
  match child r with
  | Running => o
  | Exited _ => None
  end.

(** What an event does to the runner, its child and its pumps; [None]
    when the event cannot happen. *)
Definition step_runner (e : event) (r : ProcessRunner) : option ProcessRunner :=
  match e with
  | ChildWrite s d =>
      while_running r (e ← child_write d (get_reader s r); Some (set_reader s e r))
  | ChildCloseOut s =>
      while_running r (Some (set_reader s (close_reader (get_reader s r)) r))
  | ChildCloseIn =>
      while_running r (Some (set_writer (close_writer (p_stdin r)) r))
  | ChildExit rc =>
      while_running r
        (Some (Runner (_safe_args r) (universal_newlines r) (Exited rc) (signals r)
                 (close_writer (p_stdin r))
                 (close_reader (p_stdout r))
                 (close_reader (p_stderr r))))
  | RunStdinWriter =>
      e ← run_writer (universal_newlines r) (p_stdin r); Some (set_writer e r)
  | RunReader s n =>
      e ← run_reader (universal_newlines r) n (get_reader s r); Some (set_reader s e r)
  | Terminate => Some (terminate r)
  | Kill => Some (kill r)
  | Tick | CallWait _ _ _ | Wake => Some r
  end.

(** What an event does to the clock and to the greenlet in [wait]; the
    body of [wait] only reads the runner. *)
Definition step_waiter (e : event) (r : ProcessRunner) (now : nat) (w : waiter_state)
    : option (nat * waiter_state) :=
  match e with
  | Tick =>
      Some (S now,
            match w with
            | Blocked c pc => if expired c (S now) then Done c (Raise TimeoutExpired)
                              else Blocked c pc
            | _ => w
            end)
  | CallWait f t o =>
      match w with
      | Blocked _ _ => None
      | _ => Some (now, resume r (Call f t o now) AtProcWait)
      end
  | Wake =>
      match w with
      | Blocked c pc => Some (now, resume r c pc)
      | _ => None
      end
  | _ => Some (now, w)
  end.

(** One event; [None] when it cannot happen in this configuration. *)
Definition step (e : event) (cfg : config) : option config :=
  r ← step_runner e (runner cfg);
  nw ← step_waiter e (runner cfg) (now cfg) (waiter cfg);
  Some (Config r nw.1 nw.2).

(** A run: the events of a trace, one after the other. *)
Fixpoint run_events (tr : list event) (cfg : config) : option config :=
  match tr with
  | [] => Some cfg
  | e :: tr' =>
      match step e cfg with
      | Some cfg' => run_events tr' cfg'
      | None => None
      end
  end.

(** The configuration right after [ProcessRunner(...)] returned. *)
Definition start (args : list string) (stdout stderr : out_arg) (stdin : in_arg)
    (safe_args : option (list string)) (universal_newlines : bool) : config :=
  Config (init args stdout stderr stdin safe_args universal_newlines) 0 NotCalled.



(** *** run_capturing_out *)




(** *** Invariants of a run *)

(** A reader pump passes on what it reads, in order: the calls of the
    sink followed by what is still in the pipe make up what was written;
    no call is empty; the pump ends at the end of the file only. *)
Definition reader_ok (e : reader_end) : Prop :=
  concat (r_calls e) ++ r_pending e = r_written e
  ∧ (r_task e = Some Finished → r_pending e = [] ∧ r_closed e = true)
  ∧ r_task e ≠ Some Failed
  ∧ Forall (λ u, u ≠ []) (r_calls e).

(** A writer pump writes its source in order and closes the pipe when it
    ends. *)
Definition writer_ok (units : list data) (e : writer_end) : Prop :=
  w_delivered e ++ concat (w_source e) = concat units
  ∧ (w_task e = Some Finished → w_source e = [] ∧ w_closed e = true)
  ∧ (w_task e = Some Failed → w_closed e = true).

(** What does not change after [__init__]. *)
Definition static_ok (r0 r : ProcessRunner) : Prop :=
  _safe_args r = _safe_args r0
  ∧ universal_newlines r = universal_newlines r0
  ∧ w_arg (p_stdin r) = w_arg (p_stdin r0)
  ∧ r_arg (p_stdout r) = r_arg (p_stdout r0)
  ∧ r_arg (p_stderr r) = r_arg (p_stderr r0)
  ∧ (is_Some (_stdin_writer r) ↔ is_Some (_stdin_writer r0))
  ∧ (is_Some (_stdout_reader r) ↔ is_Some (_stdout_reader r0))
  ∧ (is_Some (_stderr_reader r) ↔ is_Some (_stderr_reader r0)).

Definition runner_ok (units : list data) (r : ProcessRunner) : Prop :=
  writer_ok units (p_stdin r) ∧ reader_ok (p_stdout r) ∧ reader_ok (p_stderr r).

(** The child has ended with [rc] and no pump is alive. *)
Definition all_done (r : ProcessRunner) (rc : Z) : Prop :=
  child r = Exited rc
  ∧ truthy (_stdin_writer r) = false
  ∧ truthy (_stdout_reader r) = false
  ∧ truthy (_stderr_reader r) = false.

(** What [wait] has seen when it is blocked at [pc]. *)
Definition joined (r : ProcessRunner) (pc : wait_pc) : Prop :=
  match pc with
  | AtProcWait => True
  | AtJoinStdin rc => child r = Exited rc
  | AtJoinStdout rc => child r = Exited rc ∧ truthy (_stdin_writer r) = false
  | AtJoinStderr rc =>
      child r = Exited rc ∧ truthy (_stdin_writer r) = false
      ∧ truthy (_stdout_reader r) = false
  end.

Definition waiter_ok (cfg : config) : Prop :=
  match waiter cfg with
  | NotCalled => True
  | Blocked c pc =>
      joined (runner cfg) pc
      ∧ (expired c (now cfg) = false ∨ now cfg = started c)
  | Done c (Raise TimeoutExpired) => is_Some (timeout c)
  | Done c res =>
      ∃ rc, all_done (runner cfg) rc ∧ res = wait_finish (runner cfg) c rc
  end.

(** How the ends and the runner may change in one event: the arguments
    of [Popen] stay, a pump stays attached, and a dead pump stays as it
    is; a child that has ended stays so. *)
Definition reader_evolves (e e' : reader_end) : Prop :=
  r_arg e' = r_arg e
  ∧ (is_Some (r_task e') ↔ is_Some (r_task e))
  ∧ (truthy (r_task e) = false → r_task e' = r_task e).

Definition writer_evolves (e e' : writer_end) : Prop :=
  w_arg e' = w_arg e
  ∧ (is_Some (w_task e') ↔ is_Some (w_task e))
  ∧ (truthy (w_task e) = false → w_task e' = w_task e).

Definition evolves (r r' : ProcessRunner) : Prop :=
  _safe_args r' = _safe_args r
  ∧ universal_newlines r' = universal_newlines r
  ∧ (∀ rc, child r = Exited rc → child r' = Exited rc)
  ∧ writer_evolves (p_stdin r) (p_stdin r')
  ∧ reader_evolves (p_stdout r) (p_stdout r')
  ∧ reader_evolves (p_stderr r) (p_stderr r').

(** The invariant of a run that started from [r0] with [units] to
    write to stdin. *)
Definition inv (r0 : ProcessRunner) (units : list data) (cfg : config) : Prop :=
  static_ok r0 (runner cfg) ∧ runner_ok units (runner cfg) ∧ waiter_ok cfg.

(** The events of [wait] and of its timer. *)
Definition is_wait_event (e : event) : bool :=
  match e with
  | Tick | CallWait _ _ _ | Wake => true
  | _ => false
  end.

End Proc.

(* ================================================================== *)
(** ** Joining and stripping text *)
(* ================================================================== *)

Module Text.

(** [sep.join(l)], as in [".".join(self.server_version)]. *)
Fixpoint join (sep : string) (l : list string) : string :=
  match l with
  | [] => EmptyString
  | x :: l' =>
      match l' with
      | [] => x
      | _ => x +:+ sep +:+ join sep l'
      end
  end.

Definition carriage_return : ascii := "013"%char.

(** Membership in the character set of [rstrip("\r\n")]. *)
Definition is_crlf (c : ascii) : bool :=
  Ascii.eqb c carriage_return || Ascii.eqb c Proc.newline.

(** [line.rstrip("\r\n")]: the line without the carriage returns and
    newlines at its end. *)
Fixpoint rstrip (line : Proc.data) : Proc.data :=
  match line with
  | [] => []
  | c :: line' =>
      match rstrip line' with
      | [] => if is_crlf c then [] else [c]
      | kept => c :: kept
      end
  end.

(**
<<
class StripNL:
    def __init__(self, func):
        self._func = func

    def __call__(self, line: str):
        return self._func(line.rstrip("\r\n"))
>> *)
Definition StripNL {A} (func : Proc.data → A) (line : Proc.data) : A :=
  func (rstrip line).

(** A version field: free of "." and of "-". *)
Definition plain (s : string) : bool :=
  negb (Version.has_char "." s) && negb (Version.has_char "-" s).

(** The buffer of a [StringIO(trimmed)] after the given calls of a sink
    [StripNL(out.write)]. *)
Definition stripped_into (trimmed : bool) (calls : list Proc.data) : Proc.data :=
  foldl (λ buf, StripNL (Proc.StringIO_write trimmed buf)) [] calls.

End Text.

(* ================================================================== *)
(** ** The command line *)
(* ================================================================== *)

Module App.
Import Cache.

(** What [main] takes from [argparse]: [--clear-k8s-cache],
    [--pre-cache-k8s-client] ([None] or the versions, [type=int]) and
    [--pre-cache-k8s-client-no-patch] ([store_true] with [default=None]:
    [None] or [True]).  The logging options are left out. *)
Record args := Args {
  clear_k8s_cache_arg : bool;
  pre_cache_k8s_client : option (list Z);
  pre_cache_k8s_client_no_patch : option bool;
}.

Inductive exn :=
| TypeError (msg : string)
| SystemExit (code : Z)
| CacheError (e : Cache.exn).

(** The positional parameters of [install_python_k8s_client]:
    [run, package_major, logger, logger_stdout, logger_stderr]. *)
Definition install_arity : nat := 5.

Section WithPlatform.
Context `{Platform}.

(** A call [install_python_k8s_client(run, v, a3, ..., an)] with [nargs]
    positional arguments: Python binds the arguments before it runs the
    body, and raises [TypeError] when there are too many or too few. *)
Definition call_install (nargs : nat) (v : major) (w : world) : result exn path * world :=
  if decide (nargs = install_arity) then
    match install_python_k8s_client run v w with
    | (Ok d, w') => (Ok d, w')
    | (Raise e, w') => (Raise (CacheError e), w')
    end
  else (Raise (TypeError "install_python_k8s_client() takes 5 positional arguments"), w).

(**
<<
def pre_cache_k8s_clients( *versions, disable_patching=False):
    ...
    for v in versions:
        logger.info(...)
        install_python_k8s_client(run, v, logger, stdout_logger, stderr_logger, disable_patching)
>>
    The call passes six positional arguments. *)
Fixpoint pre_cache_k8s_clients (versions : list Z) (disable_patching : option bool)
    (w : world) : result exn unit * world :=
  match versions with
  | [] => (Ok tt, w)
  | v :: versions' =>
      match call_install 6 (MInt v) w with
      | (Ok _, w') => pre_cache_k8s_clients versions' disable_patching w'
      | (Raise e, w') => (Raise e, w')
      end
  end.

(** [not args.pre_cache_k8s_client]: [None] and the empty list are
    false. *)
Definition versions_given (v : option (list Z)) : bool :=
  match v with
  | Some (_ :: _) => true
  | _ => false
  end.

(**
<<
def main():
    argparser = define_arg_parse()
    args = argparser.parse_args()
    if not args.pre_cache_k8s_client and args.pre_cache_k8s_client_no_patch is not None:
        argparser.error("--pre-cache-k8s-client-no-patch can only be used with --pre-cache-k8s-client")
    init_logging(args.verbose, args.log_format, args.log_file)
    try:
        if args.clear_k8s_cache:
            clear_k8s_cache()
            return
        if args.pre_cache_k8s_client:
            pre_cache_k8s_clients( *args.pre_cache_k8s_client,
                                  disable_patching=args.pre_cache_k8s_client_no_patch)
            return
    except SystemExit as e:
        return e.code
    except Exception as e:
        logger.fatal("Kubernator terminated with an error: %s", e, exc_info=e)
        return 1
    else:
        logger.info("Kubernator terminated successfully")
    finally:
        logging.shutdown()
>>
    [argparser.error] exits with status 2; [init_logging] is taken to
    succeed.  The value is what [main] returns: [None] or a status. *)
Definition main (a : args) (w : world) : result exn (option Z) * world :=
  if negb (versions_given (pre_cache_k8s_client a))
     && bool_decide (is_Some (pre_cache_k8s_client_no_patch a))
  then (Raise (SystemExit 2), w)
  else if clear_k8s_cache_arg a then
    match clear_k8s_cache w with
    | (Ok _, w') => (Ok None, w')
    | (Raise _, w') => (Ok (Some 1%Z), w')
    end
  else if versions_given (pre_cache_k8s_client a) then
    match pre_cache_k8s_clients (default [] (pre_cache_k8s_client a))
            (pre_cache_k8s_client_no_patch a) w with
    | (Ok _, w') => (Ok None, w')
    | (Raise (SystemExit code), w') => (Ok (Some code), w')
    | (Raise _, w') => (Ok (Some 1%Z), w')
    end
  else (Ok None, w).

End WithPlatform.

End App.

(* ================================================================== *)
(** ** More invariants of the process runner *)
(* ================================================================== *)

Module ProcInv.
Import Proc.

(** A complete line: a newline at its end and nowhere else. *)
Definition complete_line (u : data) : Prop :=
  ∃ body, u = body ++ [newline] ∧ Forall (λ c, c ≠ newline) body.

(** Text mode: a call of the sink is a complete line, except for the
    last call when the pipe was closed and is exhausted. *)
Definition lines_ok (e : reader_end) : Prop :=
  ∀ pre u post,
    r_calls e = pre ++ u :: post →
    post ≠ [] ∨ r_pending e ≠ [] ∨ r_closed e = false →
    complete_line u.

(** Binary mode: a call of the sink carries between one byte and a full
    buffer. *)
Definition chunks_ok (e : reader_end) : Prop :=
  Forall (λ u, (1 ≤ length u ≤ bufsize)%nat) (r_calls e).




(** A reader end without pump has made no call of a sink. *)
Definition unpumped_ok (e : reader_end) : Prop :=
  r_task e = None → r_calls e = [].


End ProcInv.

(* ================================================================== *)
(** ** More examples *)
(* ================================================================== *)

Module Examples.
Import Cache.



(** A file system in which whatever exists has its ancestors. *)
Definition well_formed (f : fsys) : Prop :=
  ∀ p q : path, p ∈ f → q `prefix_of` p → q ≠ [] → q ∈ f.

End Examples.

(* ================================================================== *)
(** * Properties *)
(* ================================================================== *)

(** ** Server version strings *)

Module VersionFacts.
Import Version.

Lemma split_nonempty sep s : split sep s ≠ [].
Proof.
  destruct s as [|c s]; simpl; [done|].
  destruct (Ascii.eqb c sep); [done|].
  by destruct (split sep s).
Qed.

Lemma first_split sep s : first (split sep s) = strip_suffix sep s.
Proof.
  induction s as [|c s IH]; simpl; [done|].
  destruct (Ascii.eqb c sep); [done|].
  destruct (split sep s) as [|h t] eqn:E.
  - by destruct (split_nonempty sep s).
  - simpl in *. by rewrite IH.
Qed.

Lemma strip_suffix_no_sep sep s : has_char sep (strip_suffix sep s) = false.
Proof.
  induction s as [|c s IH]; simpl; [done|].
  destruct (Ascii.eqb c sep) eqn:E; simpl; [done|].
  by rewrite E, IH.
Qed.

Lemma strip_suffix_is_prefix sep s :
  ∃ rest, s = String.append (strip_suffix sep s) rest.
Proof.
  induction s as [|c s [rest IH]]; simpl.
  - by exists "".
  - destruct (Ascii.eqb c sep).
    + by exists (String c s).
    + exists rest.
      change (String c s = String c (String.append (strip_suffix sep s) rest)).
      by f_equal.
Qed.

Lemma strip_suffix_id sep s : has_char sep s = false → strip_suffix sep s = s.
Proof.
  induction s as [|c s IH]; simpl; [done|].
  destruct (Ascii.eqb c sep); simpl; [done|].
  intros Hs. by rewrite IH.
Qed.

(** C5, as the specification has it, fails: for "v1.29.4-eks-abc123" the
    recorded [server_git_version] is not the raw string. *)
Lemma eks_git_version_is_not_raw :
  ¬ (numeric <$> server_version "v1.29.4-eks-abc123" = [Some 1; Some 29; Some 4]%Z
     ∧ server_git_version "v1.29.4-eks-abc123" = "v1.29.4-eks-abc123"
     ∧ server_version "v1.29.4" = server_version "v1.29.4-eks-abc123").
Proof. intros (_ & Hraw & _). vm_compute in Hraw. discriminate. Qed.

(** C5, amended: "v1.29.4-eks-abc123" is parsed to the components "1",
    "29", "4" (the numerals of 1, 29 and 4), and the recorded
    [server_git_version] is the stripped "v1.29.4"; the plain "v1.29.4"
    gives the same components and the same [server_git_version]. *)
Theorem eks_version_parse :
  server_version "v1.29.4-eks-abc123" = ["1"; "29"; "4"]
  ∧ numeric <$> server_version "v1.29.4-eks-abc123" = [Some 1; Some 29; Some 4]%Z
  ∧ server_git_version "v1.29.4-eks-abc123" = "v1.29.4"
  ∧ server_version "v1.29.4" = server_version "v1.29.4-eks-abc123"
  ∧ server_git_version "v1.29.4" = server_git_version "v1.29.4-eks-abc123".
Proof. repeat split; reflexivity. Qed.

(** C6, as the specification has it, fails: "v1.29.4-gke.100" has a "-",
    and its components are not those of the text before the first "-". *)
Lemma vendor_suffix_not_stripped :
  has_char "-" "v1.29.4-gke.100" = true
  ∧ server_version "v1.29.4-gke.100" = ["1"; "29"; "4-gke"; "100"]
  ∧ server_version "v1.29.4-gke.100"
    ≠ split "." (tail (strip_suffix "-" "v1.29.4-gke.100")).
Proof. repeat split; [vm_compute; discriminate]. Qed.

(** C6, amended: for every version string that contains "-eks-", what
    follows the first "-" (and that "-") is stripped before the string is
    split into its components, and nothing of a "-" is left; every other
    string is split whole, vendor suffix included. *)
Theorem eks_suffix_stripped raw :
  (contains "-eks-" raw = true →
     server_version raw = split "." (tail (strip_suffix "-" raw))
     ∧ server_git_version raw = strip_suffix "-" raw
     ∧ has_char "-" (server_git_version raw) = false)
  ∧ (contains "-eks-" raw = false →
     server_version raw = split "." (tail raw)
     ∧ server_git_version raw = raw).
Proof.
  unfold server_version, server_git_version, git_version.
  split; intros ->.
  - rewrite first_split. split_and!; [done..|apply strip_suffix_no_sep].
  - done.
Qed.

Lemma eks_suffix_stripped_witness :
  contains "-eks-" "v1.30.2-eks-1f2e3d" = true
  ∧ server_version "v1.30.2-eks-1f2e3d" = ["1"; "30"; "2"]
  ∧ contains "-eks-" "v1.30.2+k3s1" = false
  ∧ server_version "v1.30.2+k3s1" = ["1"; "30"; "2+k3s1"].
Proof.
  destruct (eks_suffix_stripped "v1.30.2-eks-1f2e3d") as [H1 _].
  destruct (eks_suffix_stripped "v1.30.2+k3s1") as [_ H2].
  split; [reflexivity|].
  split; [rewrite (proj1 (H1 eq_refl)); reflexivity|].
  split; [reflexivity|].
  rewrite (proj1 (H2 eq_refl)); reflexivity.
Defined.

End VersionFacts.

(** ** The client cache *)

Module CacheFacts.
Import Cache.

Lemma ancestors_self (p : path) : p ≠ [] → p ∈ ancestors p.
Proof.
  intros Hp. unfold ancestors. apply list_elem_of_fmap.
  exists (length p). split; [by rewrite firstn_all|].
  apply elem_of_seq. destruct p; simpl in *; [done|lia].
Qed.

Lemma ancestors_prefix (p q : path) : q ∈ ancestors p → q `prefix_of` p ∧ q ≠ [].
Proof.
  unfold ancestors. intros (n & -> & Hn)%list_elem_of_fmap.
  apply elem_of_seq in Hn. split.
  - exists (drop n p). by rewrite take_drop.
  - destruct p; simpl in *; [lia|]. destruct n; [lia|done].
Qed.

Lemma ensure_dir_elem p f : p ≠ [] → p ∈ ensure_dir p f.
Proof.
  intros Hp. unfold ensure_dir, path_exists. case_bool_decide; [done|].
  apply elem_of_union_r, elem_of_list_to_set, ancestors_self, Hp.
Qed.

Lemma ensure_dir_mono p f q : q ∈ f → q ∈ ensure_dir p f.
Proof. unfold ensure_dir. destruct (path_exists f p); set_solver. Qed.

Lemma ensure_dir_inv p f q :
  q ∈ ensure_dir p f → q ∈ f ∨ (q `prefix_of` p ∧ q ≠ []).
Proof.
  unfold ensure_dir. destruct (path_exists f p); [by left|].
  intros [?|Hq%elem_of_list_to_set]%elem_of_union; [by left|].
  right. by apply ancestors_prefix.
Qed.

Lemma elem_of_rmtree p f q : q ∈ rmtree p f ↔ q ∈ f ∧ ¬ p `prefix_of` q.
Proof. unfold rmtree. rewrite elem_of_filter. tauto. Qed.

(** [str] of an [int] is never empty: every [int] has a cache directory
    of its own below the cache directory. *)
Lemma str_int_nonempty n : str (MInt n) ≠ "".
Proof.
  destruct n as [|p|p]; simpl; [done| |done].
  unfold NilZero.string_of_uint. by destruct (Pos.to_uint p).
Qed.

Section WithPlatform.
Context `{Platform}.

Lemma python_cache_dir_eq : python_cache_dir = app_cache_dir ++ ["python"].
Proof. reflexivity. Qed.

Lemma python_cache_dir_nonempty : python_cache_dir ≠ [].
Proof. rewrite python_cache_dir_eq. by destruct app_cache_dir. Qed.

Lemma major_dir_nonempty m : major_dir m ≠ [].
Proof.
  unfold major_dir, path_join. case_decide; [apply python_cache_dir_nonempty|].
  by destruct python_cache_dir.
Qed.

Lemma major_dir_below m : python_cache_dir `prefix_of` major_dir m.
Proof.
  unfold major_dir, path_join. case_decide; [done|]. by eexists.
Qed.

Lemma get_cache_dir_python w :
  get_cache_dir "python" None w
  = (Ok python_cache_dir, with_fs (ensure_dir python_cache_dir (fs w)) w).
Proof.
  unfold get_cache_dir, ensure_dir, with_fs, lift_fs, mkdir.
  fold python_cache_dir.
  unfold mbind, M_bind, mret, M_ret, get_fs, put_fs; simpl.
  destruct (path_exists (fs w) python_cache_dir) eqn:E; simpl.
  - by destruct w.
  - by rewrite E.
Qed.

(** [install_python_k8s_client] in one piece. *)
Lemma install_eq m w :
  install_python_k8s_client run m w =
    let f1 := ensure_dir python_cache_dir (fs w) in
    let d := major_dir m in
    if path_exists f1 d then (Ok d, with_fs f1 w)
    else
      let cmd := pip_command m d in
      let out := installer cmd (f1 ∪ list_to_set (ancestors d)) in
      let w' := World out.2 (installs w ++ [cmd]) (sys_path w) (sys_modules w) in
      (if bool_decide (out.1 = 0%Z) then Ok d else Raise (CalledProcessError out.1 cmd), w').
Proof.
  unfold install_python_k8s_client.
  unfold mbind at 1. unfold M_bind at 1. rewrite get_cache_dir_python.
  fold (major_dir m). simpl.
  unfold mbind, M_bind, mret, M_ret, get_fs; simpl.
  destruct (path_exists _ (major_dir m)) eqn:E; simpl; [done|].
  unfold lift_fs, mkdir, put_fs, run; simpl. rewrite E; simpl.
  destruct (installer _ _) as [rc f3]; simpl.
  by case_bool_decide.
Qed.

Lemma install_hit m w :
  path_exists (fs w) (major_dir m) = true →
  install_python_k8s_client run m w
  = (Ok (major_dir m), with_fs (ensure_dir python_cache_dir (fs w)) w).
Proof.
  intros Hd. rewrite install_eq; simpl.
  assert (path_exists (ensure_dir python_cache_dir (fs w)) (major_dir m) = true) as ->; [|done].
  apply bool_decide_eq_true, ensure_dir_mono.
  by apply bool_decide_eq_true in Hd.
Qed.

(** After a call the directory exists, whether the installer succeeded
    or not. *)
Lemma install_leaves_dir m w r w' :
  installer_keeps →
  install_python_k8s_client run m w = (r, w') →
  path_exists (fs w') (major_dir m) = true.
Proof.
  intros Hkeep. rewrite install_eq; simpl.
  destruct (path_exists _ (major_dir m)) eqn:E.
  - intros [= <- <-]. done.
  - intros [= <- <-]. simpl. apply bool_decide_eq_true, Hkeep.
    apply elem_of_union_r, elem_of_list_to_set, ancestors_self, major_dir_nonempty.
Qed.

Lemma install_result m w r w' :
  install_python_k8s_client run m w = (r, w') →
  r = Ok (major_dir m)
  ∨ ∃ rc, rc ≠ 0%Z ∧ r = Raise (CalledProcessError rc (pip_command m (major_dir m))).
Proof.
  rewrite install_eq; simpl.
  destruct (path_exists _ (major_dir m)); [intros [= <- <-]; by left|].
  intros [= <- <-]. case_bool_decide; [by left|right; eauto].
Qed.

Lemma install_log m w r w' :
  install_python_k8s_client run m w = (r, w') →
  installs w' = installs w
  ∨ installs w' = installs w ++ [pip_command m (major_dir m)].
Proof.
  rewrite install_eq; simpl.
  destruct (path_exists _ (major_dir m)); intros [= <- <-]; simpl; auto.
Qed.

Lemma install_sys_path m w r w' :
  install_python_k8s_client run m w = (r, w') → sys_path w' = sys_path w.
Proof.
  rewrite install_eq; simpl.
  destruct (path_exists _ (major_dir m)); intros [= <- <-]; simpl; auto.
Qed.

Lemma clear_k8s_cache_eq w :
  clear_k8s_cache w
  = (Ok tt, with_fs (rmtree python_cache_dir (ensure_dir python_cache_dir (fs w))) w).
Proof.
  unfold clear_k8s_cache.
  unfold mbind at 1. unfold M_bind at 1. rewrite get_cache_dir_python.
  unfold _clear_cache, mbind, M_bind, get_fs, put_fs, with_fs; simpl.
  assert (path_exists (ensure_dir python_cache_dir (fs w)) python_cache_dir = true) as ->; [|done].
  apply bool_decide_eq_true, ensure_dir_elem, python_cache_dir_nonempty.
Qed.

Lemma prefix_of_antisym (p q : path) : p `prefix_of` q → q `prefix_of` p → p = q.
Proof.
  intros [k ->] [k' Hk'].
  assert (k = []) as ->; [|by rewrite app_nil_r].
  apply (f_equal length) in Hk'. rewrite !length_app in Hk'.
  destruct k; [done|simpl in *; lia].
Qed.

Lemma major_dir_strictly_below m q :
  str m ≠ "" → major_dir m `prefix_of` q → ¬ q `prefix_of` python_cache_dir.
Proof.
  unfold major_dir, path_join. case_decide; [done|].
  intros _ [k ->] [k' Hk'].
  apply (f_equal length) in Hk'. rewrite !length_app in Hk'. simpl in *. lia.
Qed.

(** C4: [install_python_k8s_client] is idempotent.  When the directory of
    the major version exists it is returned at once and no installer is
    run; of two calls in a row for the same major version the second one
    returns that directory and runs no installer, so that the two run it
    at most once, and a first call that returns gives the same path (it
    can only raise the installer's [CalledProcessError] instead). *)
Theorem install_idempotent m w :
  installer_keeps →
  (path_exists (fs w) (major_dir m) = true →
     ∃ w', install_python_k8s_client run m w = (Ok (major_dir m), w')
           ∧ installs w' = installs w ∧ fs w ⊆ fs w')
  ∧ ∀ r1 w1 r2 w2,
      install_python_k8s_client run m w = (r1, w1) →
      install_python_k8s_client run m w1 = (r2, w2) →
      r2 = Ok (major_dir m)
      ∧ installs w2 = installs w1
      ∧ (length (installs w2) ≤ S (length (installs w)))%nat
      ∧ (r1 = Ok (major_dir m)
         ∨ ∃ rc, rc ≠ 0%Z
                 ∧ r1 = Raise (CalledProcessError rc (pip_command m (major_dir m)))).
Proof.
  intros Hkeep. split.
  - intros Hd. eexists. split; [by apply install_hit|]. split; [done|].
    intros q Hq. by apply ensure_dir_mono.
  - intros r1 w1 r2 w2 H1 H2.
    pose proof (install_leaves_dir _ _ _ _ Hkeep H1) as Hd.
    rewrite (install_hit _ _ Hd) in H2. injection H2 as <- <-.
    split; [done|]. split; [done|]. split.
    + simpl. destruct (install_log _ _ _ _ H1) as [->| ->]; [lia|].
      rewrite length_app; simpl; lia.
    + by apply install_result in H1.
Qed.

(** C9: [clear_k8s_cache] removes the cache directory with everything
    below it and nothing else; a following [install_python_k8s_client]
    for a major version finds no directory for it, makes the directory
    anew (nothing is below it when the installer starts) and runs the
    installer on it. *)
Theorem clear_then_install m w :
  str m ≠ "" →
  ∃ w1,
    clear_k8s_cache w = (Ok tt, w1)
    ∧ (∀ q, python_cache_dir `prefix_of` q → q ∉ fs w1)
    ∧ (∀ q, q ∈ fs w → ¬ python_cache_dir `prefix_of` q → q ∈ fs w1)
    ∧ installs w1 = installs w
    ∧ path_exists (fs w1) (major_dir m) = false
    ∧ ∃ f2 r2 w2,
        install_python_k8s_client run m w1 = (r2, w2)
        ∧ major_dir m ∈ f2
        ∧ (∀ q, major_dir m `prefix_of` q → q ∈ f2 → q = major_dir m)
        ∧ installs w2 = installs w ++ [pip_command m (major_dir m)]
        ∧ fs w2 = (installer (pip_command m (major_dir m)) f2).2
        ∧ r2 = (if bool_decide ((installer (pip_command m (major_dir m)) f2).1 = 0%Z)
                then Ok (major_dir m)
                else Raise (CalledProcessError
                              (installer (pip_command m (major_dir m)) f2).1
                              (pip_command m (major_dir m)))).
Proof.
  intros Hm. eexists. split; [apply clear_k8s_cache_eq|].
  set (f1 := rmtree python_cache_dir (ensure_dir python_cache_dir (fs w))).
  assert (Hgone : ∀ q, python_cache_dir `prefix_of` q → q ∉ f1).
  { intros q Hq [_ Hn]%elem_of_rmtree. by apply Hn. }
  assert (Hd : path_exists f1 (major_dir m) = false).
  { apply bool_decide_eq_false, Hgone, major_dir_below. }
  split; [exact Hgone|]. split.
  { intros q Hq Hn. apply elem_of_rmtree. split; [by apply ensure_dir_mono|done]. }
  split; [done|]. split; [exact Hd|].
  assert (Hd' : path_exists (ensure_dir python_cache_dir f1) (major_dir m) = false).
  { apply bool_decide_eq_false. intros [Hq|[Hq _]]%ensure_dir_inv.
    - by apply (Hgone (major_dir m)); [apply major_dir_below|].
    - by apply (major_dir_strictly_below m (major_dir m)). }
  exists (ensure_dir python_cache_dir f1 ∪ list_to_set (ancestors (major_dir m))).
  eexists _, _. split.
  { rewrite install_eq. simpl. fold f1. rewrite Hd'. reflexivity. }
  split.
  { apply elem_of_union_r, elem_of_list_to_set, ancestors_self, major_dir_nonempty. }
  split; [|done].
  intros q Hq [Hin|Hin%elem_of_list_to_set]%elem_of_union.
  - apply ensure_dir_inv in Hin as [Hin|[Hin _]].
    + exfalso. apply (Hgone q); [|done].
      etrans; [apply major_dir_below|done].
    + by destruct (major_dir_strictly_below m q).
  - apply ancestors_prefix in Hin as [Hin _]. by apply prefix_of_antisym.
Qed.

(** [setup_client] in terms of the installation it asks for. *)
Lemma setup_client_eq self w m :
  let parsed := Wrapper (Some (Version.server_version cluster_git_version))
                        (Some (Version.server_git_version cluster_git_version)) true in
  let self1 := if is_set (server_version self) then self
               else parsed (embedded_pkg_version self) in
  server_version self1 ≫= (λ v, v !! 1%nat) = Some m →
  setup_client (self, w) =
    match install_python_k8s_client run (MStr m) w with
    | (Ok d, w1) =>
        let sp := path_str d :: sys_path w1 in
        (Ok tt, (parsed (Version.split "." (pkg_version sp)),
                 World (fs w1) (installs w1) sp
                   (filter (λ k, ¬ is_kubernetes_module k) (sys_modules w1))))
    | (Raise e, w1) => (Raise e, (self1, w1))
    end.
Proof.
  intros parsed self1 Hm. subst self1 parsed.
  unfold setup_client.
  repeat (unfold mbind, M_bind, mret, M_ret, get_self, _setup_client, put_self,
            in_world, raise, option_bind in *;
          cbn [fst snd negb] in * ).
  destruct self as [[[|a v]|] sg cl emb]; cbn [is_set server_version negb] in *;
    cbn [fst snd server_version] in *; rewrite Hm; cbn [fst snd];
    destruct (install_python_k8s_client run (MStr m) w) as [[d|e] w1]; simpl; done.
Qed.

(** C7: the client that [setup_client] asks for is the one whose major
    version is the minor field [m] of the server version.  On a wrapper
    that has no server version yet and with no directory for [m] in the
    cache, the call runs the installer once, for "kubernetes~=m.0" into
    the cache directory of [m], which it puts in front of [sys.path]; a
    further [setup_client] runs no installer. *)
Theorem setup_client_targets_server_minor self w m :
  installer_keeps →
  is_set (server_version self) = false →
  Version.server_version cluster_git_version !! 1%nat = Some m →
  m ≠ "" →
  path_exists (fs w) (python_cache_dir ++ [m]) = false →
  ∃ r1 self1 w1,
    setup_client (self, w) = (r1, (self1, w1))
    ∧ server_version self1 = Some (Version.server_version cluster_git_version)
    ∧ installs w1
      = installs w ++ [pip_command (MStr m) (python_cache_dir ++ [m])]
    ∧ last (pip_command (MStr m) (python_cache_dir ++ [m]))
      = Some ("kubernetes~=" +:+ m +:+ ".0")
    ∧ path_exists (fs w1) (python_cache_dir ++ [m]) = true
    ∧ (r1 = Ok tt → sys_path w1 = path_str (python_cache_dir ++ [m]) :: sys_path w)
    ∧ ∃ self2 w2,
        setup_client (self1, w1) = (Ok tt, (self2, w2))
        ∧ installs w2 = installs w1
        ∧ sys_path w2 = path_str (python_cache_dir ++ [m]) :: sys_path w1.
Proof.
  intros Hkeep Hfresh Hminor Hm Hd.
  assert (Hdir : major_dir (MStr m) = python_cache_dir ++ [m]).
  { unfold major_dir, path_join; simpl. by case_decide. }
  rewrite <- Hdir in *.
  pose proof (setup_client_eq self w m) as H1. cbv zeta in H1.
  rewrite Hfresh in H1. specialize (H1 Hminor).
  destruct (install_python_k8s_client run (MStr m) w) as [r w1] eqn:Hinst.
  pose proof (install_leaves_dir _ _ _ _ Hkeep Hinst) as Hd1.
  assert (Hlog : installs w1 = installs w ++ [pip_command (MStr m) (major_dir (MStr m))]).
  { revert Hinst. rewrite install_eq; simpl.
    assert (path_exists (ensure_dir python_cache_dir (fs w)) (major_dir (MStr m)) = false) as ->.
    { apply bool_decide_eq_false. intros [Hq|[Hq _]]%ensure_dir_inv.
      - by apply bool_decide_eq_false in Hd.
      - by apply (major_dir_strictly_below (MStr m) (major_dir (MStr m))). }
    by intros [= <- <-]. }
  assert (Hsecond : ∀ s1 w', is_set (server_version s1) = true →
            server_version s1 = Some (Version.server_version cluster_git_version) →
            fs w' = fs w1 →
            ∃ self2 w2, setup_client (s1, w') = (Ok tt, (self2, w2))
              ∧ installs w2 = installs w'
              ∧ sys_path w2 = path_str (major_dir (MStr m)) :: sys_path w').
  { intros s1 w' Hset Hsv Hfs.
    rewrite (setup_client_eq s1 w' m); [|by rewrite Hset, Hsv].
    rewrite install_hit; [|by rewrite Hfs]. simpl. eauto. }
  assert (Hset : is_set (Some (Version.server_version cluster_git_version)) = true).
  { destruct (Version.server_version cluster_git_version); [done|done]. }
  destruct (install_result _ _ _ _ Hinst) as [->|(rc & Hrc & ->)].
  - eexists _, _, _. split; [exact H1|]. simpl.
    split_and!; [done|done|done|done| |].
    + intros _. by rewrite (install_sys_path _ _ _ _ Hinst).
    + apply Hsecond; done.
  - eexists _, _, _. split; [exact H1|]. simpl.
    split_and!; [done|done|done|done|done|].
    apply Hsecond; done.
Qed.

End WithPlatform.

#[local] Existing Instance platform_1_30_2.

Lemma install_idempotent_witness :
  installer_keeps
  ∧ (let '(r1, w1) := install_python_k8s_client run (MInt 30) empty_world in
     let '(r2, w2) := install_python_k8s_client run (MInt 30) w1 in
     r2 = Ok ["home"; "nomw"; ".cache"; "nomw"; "python"; "30"]
     ∧ installs w2 = installs w1
     ∧ (length (installs w2) ≤ 1)%nat).
Proof.
  assert (Hkeep : installer_keeps).
  { intros argv f p Hp. exact Hp. }
  split; [exact Hkeep|].
  destruct (install_python_k8s_client run (MInt 30) empty_world) as [r1 w1] eqn:H1.
  destruct (install_python_k8s_client run (MInt 30) w1) as [r2 w2] eqn:H2.
  destruct (@install_idempotent platform_1_30_2 (MInt 30) empty_world Hkeep)
    as [_ Htwice].
  destruct (Htwice r1 w1 r2 w2 H1 H2) as (Hr & Hlog & Hlen & _).
  split; [exact Hr|]. split; [exact Hlog|exact Hlen].
Defined.

Lemma clear_then_install_witness :
  str (MInt 30) ≠ ""
  ∧ ∃ w1,
      clear_k8s_cache
        (World {[ ["home"; "nomw"; ".cache"; "nomw"; "python"; "30"] ]} [] [] []) = (Ok tt, w1)
      ∧ path_exists (fs w1) ["home"; "nomw"; ".cache"; "nomw"; "python"; "30"] = false.
Proof.
  pose proof (str_int_nonempty 30) as Hm.
  split; [exact Hm|].
  destruct (@clear_then_install platform_1_30_2 (MInt 30)
              (World {[ ["home"; "nomw"; ".cache"; "nomw"; "python"; "30"] ]} [] [] []) Hm)
    as (w1 & Hclear & _ & _ & _ & Hd & _).
  exists w1. split; [exact Hclear|exact Hd].
Defined.

Lemma setup_client_targets_server_minor_witness :
  installer_keeps
  ∧ Version.server_version cluster_git_version !! 1%nat = Some "30"
  ∧ ∃ r1 self1 w1,
      setup_client (Wrapper None None false ["29"; "0"; "0"], empty_world)
      = (r1, (self1, w1))
      ∧ installs w1
        = [["/usr/bin/python3"; "-m"; "pip"; "install"; "--no-deps"; "--no-input"; "--pre";
            "--root-user-action=ignore"; "--break-system-packages";
            "--disable-pip-version-check"; "--target";
            "/home/nomw/.cache/nomw/python/30"; "kubernetes~=30.0"]]
      ∧ ∃ self2 w2,
          setup_client (self1, w1) = (Ok tt, (self2, w2))
          ∧ installs w2 = installs w1.
Proof.
  assert (Hkeep : installer_keeps).
  { intros argv f p Hp. exact Hp. }
  assert (Hne : "30" ≠ "") by discriminate.
  assert (Habsent : path_exists (fs empty_world) (python_cache_dir ++ ["30"]) = false)
    by (vm_compute; reflexivity).
  destruct (@setup_client_targets_server_minor platform_1_30_2
              (Wrapper None None false ["29"; "0"; "0"]) empty_world "30"
              Hkeep eq_refl eq_refl Hne Habsent)
    as (r1 & self1 & w1 & H1 & _ & Hlog & _ & _ & _ & self2 & w2 & H2 & Hlog2 & _).
  split; [exact Hkeep|]. split; [reflexivity|].
  exists r1, self1, w1. split; [exact H1|]. split; [exact Hlog|].
  exists self2, w2. split; [exact H2|exact Hlog2].
Defined.

End CacheFacts.

(** ** The process runner *)

Module ProcFacts.
Import Proc.

(** *** Reading from a pipe *)

Lemma readline_spec s l rest :
  readline s = Some (l, rest) → l ++ rest = s ∧ l ≠ [].
Proof.
  revert l rest. induction s as [|c s IH]; intros l rest; simpl; [done|].
  destruct (Ascii.eqb c newline).
  - intros [= <- <-]. done.
  - destruct (readline s) as [[l' rest']|]; [|done].
    intros [= <- <-]. destruct (IH l' rest' eq_refl) as [<- _]. done.
Qed.

(** A line ends with its newline, and has no other. *)
Lemma readline_line s l rest :
  readline s = Some (l, rest) →
  ∃ body, l = body ++ [newline] ∧ Forall (λ c, c ≠ newline) body.
Proof.
  revert l rest. induction s as [|c s IH]; intros l rest; simpl; [done|].
  destruct (Ascii.eqb c newline) eqn:E.
  - intros [= <- <-]. apply Ascii.eqb_eq in E as ->. by exists [].
  - destruct (readline s) as [[l' rest']|]; [|done].
    intros [= <- <-]. destruct (IH l' rest' eq_refl) as (body & -> & Hb).
    exists (c :: body). split; [done|]. constructor; [|done].
    intros ->. by rewrite Ascii.eqb_refl in E.
Qed.

Lemma pipe_next_line_spec pending closed unit rest :
  pipe_next_line pending closed = Some (unit, rest) →
  unit ++ rest = pending ∧ (unit = [] → pending = [] ∧ closed = true).
Proof.
  unfold pipe_next_line. destruct (readline pending) as [[l r]|] eqn:E.
  - intros [= <- <-]. apply readline_spec in E as [? ?]. done.
  - destruct closed; [|done]. intros [= <- <-]. by rewrite app_nil_r.
Qed.

Lemma bufsize_pos : (1 ≤ bufsize)%nat.
Proof. exact (Pos2Nat.is_pos 16384). Qed.

Lemma pipe_readinto_spec n pending closed unit rest :
  pipe_readinto n pending closed = Some (unit, rest) →
  unit ++ rest = pending
  ∧ (unit = [] → pending = [] ∧ closed = true)
  ∧ (length unit ≤ bufsize)%nat.
Proof.
  unfold pipe_readinto. pose proof bufsize_pos as Hb.
  revert Hb. generalize bufsize. intros b Hb.
  destruct pending as [|c p].
  - destruct closed; [|done]. intros [= <- <-].
    split_and!; [done|done|apply Nat.le_0_l].
  - intros [= <- <-]. rewrite take_drop. split; [done|].
    set (k := Nat.max 1 _).
    assert (1 ≤ k ≤ b)%nat as Hk by (subst k; simpl length; lia).
    split.
    + destruct k; [lia|]. done.
    + rewrite length_take. lia.
Qed.

(** *** One round of a pump *)

Lemma reader_round_ok e read e' :
  reader_ok e →
  r_task e = Some Active →
  (∀ unit rest, read = Some (unit, rest) →
     unit ++ rest = r_pending e ∧ (unit = [] → r_pending e = [] ∧ r_closed e = true)) →
  reader_round e read = Some e' →
  reader_ok e'.
Proof.
  intros (Hw & Hfin & Hfail & Hne) Hact Hread.
  destruct read as [[unit rest]|]; [|done].
  destruct (Hread unit rest eq_refl) as [Hsplit Hempty].
  destruct unit as [|c unit]; simpl; intros [= <-]; unfold reader_ok; simpl.
  - destruct (Hempty eq_refl) as [Hp Hc]. split_and!; try done.
  - split_and!.
    + rewrite concat_app; simpl. rewrite app_nil_r, <- Hw, <- Hsplit.
      by rewrite <- !app_assoc.
    + by rewrite Hact.
    + done.
    + apply Forall_app. split; [done|]. by constructor.
Qed.

Lemma run_reader_ok text n e e' :
  reader_ok e → run_reader text n e = Some e' → reader_ok e'.
Proof.
  intros Hok. unfold run_reader.
  destruct (r_task e) as [[| |]|] eqn:Htask; try done.
  destruct text; unfold stream_reader_line, stream_reader_buf;
    apply reader_round_ok; try done.
  - intros unit rest Hr. by apply pipe_next_line_spec in Hr.
  - intros unit rest Hr. apply pipe_readinto_spec in Hr. tauto.
Qed.

Lemma child_write_ok d e e' :
  reader_ok e → child_write d e = Some e' → reader_ok e'.
Proof.
  intros (Hw & Hfin & Hfail & Hne). unfold child_write.
  case_decide; [|by intros [= <-]].
  destruct (r_closed e) eqn:Hc; [done|]. intros [= <-].
  unfold reader_ok; simpl. split_and!; try done.
  - by rewrite app_assoc, Hw.
  - intros Ht. destruct (Hfin Ht) as [_ ?]. congruence.
Qed.

Lemma close_reader_ok e : reader_ok e → reader_ok (close_reader e).
Proof.
  intros (Hw & Hfin & Hfail & Hne). unfold reader_ok; simpl.
  split_and!; try done. intros Ht. by destruct (Hfin Ht).
Qed.

Lemma stream_writer_ok units e :
  writer_ok units e → w_task e = Some Active → writer_ok units (stream_writer e).
Proof.
  intros (Hd & Hfin & Hfail) Hact. unfold stream_writer, writer_ok.
  destruct (w_source e) as [|unit rest] eqn:Hs; simpl.
  - split_and!; try done.
  - destruct (w_rclosed e); simpl.
    + split_and!; try done.
    + rewrite Hact. split_and!; try done.
      by rewrite <- app_assoc.
Qed.

Lemma run_writer_ok units text e e' :
  writer_ok units e → run_writer text e = Some e' → writer_ok units e'.
Proof.
  intros Hok. unfold run_writer.
  destruct (w_task e) as [[| |]|] eqn:Htask; try done.
  intros [= <-]. destruct text; by apply stream_writer_ok.
Qed.

Lemma close_writer_ok units e : writer_ok units e → writer_ok units (close_writer e).
Proof. intros (Hd & Hfin & Hfail). unfold writer_ok; simpl. done. Qed.

(** *** One event on the runner *)

Lemma reader_evolves_refl e : reader_evolves e e.
Proof. by unfold reader_evolves. Qed.

Lemma writer_evolves_refl e : writer_evolves e e.
Proof. by unfold writer_evolves. Qed.

Lemma evolves_refl r : evolves r r.
Proof.
  unfold evolves. split_and!; try done;
    auto using reader_evolves_refl, writer_evolves_refl.
Qed.

Lemma child_write_evolves d e e' : child_write d e = Some e' → reader_evolves e e'.
Proof.
  unfold child_write. case_decide; [|intros [= <-]; apply reader_evolves_refl].
  destruct (r_closed e); [done|]. by intros [= <-].
Qed.

Lemma run_reader_evolves text n e e' : run_reader text n e = Some e' → reader_evolves e e'.
Proof.
  unfold run_reader. destruct (r_task e) as [[| |]|] eqn:Ht; try done.
  unfold stream_reader_line, stream_reader_buf, reader_round.
  destruct text; (case_match; [|done]); repeat case_match; intros [= <-];
    unfold reader_evolves; simpl; rewrite Ht; split_and!; try done;
    split; by eauto.
Qed.

Lemma run_writer_evolves text e e' : run_writer text e = Some e' → writer_evolves e e'.
Proof.
  unfold run_writer. destruct (w_task e) as [[| |]|] eqn:Ht; try done.
  intros [= <-]. unfold stream_writer_text, stream_writer_buf, stream_writer.
  destruct text; repeat case_match; unfold writer_evolves; simpl; rewrite ?Ht;
    split_and!; try done; split; by eauto.
Qed.

Lemma set_reader_evolves s e r :
  reader_evolves (get_reader s r) e → evolves r (set_reader s e r).
Proof.
  intros He. unfold evolves. destruct s; simpl; split_and!; try done;
    auto using reader_evolves_refl, writer_evolves_refl.
Qed.

Lemma set_writer_evolves e r :
  writer_evolves (p_stdin r) e → evolves r (set_writer e r).
Proof.
  intros He. unfold evolves. simpl; split_and!; try done;
    auto using reader_evolves_refl.
Qed.

Lemma send_signal_evolves sg r : evolves r (send_signal sg r).
Proof.
  unfold send_signal. destruct (child r) eqn:E; [|apply evolves_refl].
  unfold evolves; simpl. rewrite E. split_and!; try done;
    auto using reader_evolves_refl, writer_evolves_refl.
Qed.

Lemma step_runner_evolves e r r' : step_runner e r = Some r' → evolves r r'.
Proof.
  destruct e; simpl; unfold while_running.
  - destruct (child r); [|done].
    destruct (child_write d (get_reader s r)) as [e'|] eqn:E; [|done].
    intros [= <-]. eapply set_reader_evolves, child_write_evolves, E.
  - destruct (child r); [|done]. intros [= <-]. by apply set_reader_evolves.
  - destruct (child r); [|done]. intros [= <-]. by apply set_writer_evolves.
  - destruct (child r) eqn:E; [|done]. intros [= <-].
    unfold evolves; simpl. rewrite E. by split_and!.
  - destruct (run_writer _ _) as [e'|] eqn:E; [|done].
    intros [= <-]. eapply set_writer_evolves, run_writer_evolves, E.
  - destruct (run_reader _ _ _) as [e'|] eqn:E; [|done].
    intros [= <-]. eapply set_reader_evolves, run_reader_evolves, E.
  - intros [= <-]. apply evolves_refl.
  - intros [= <-]. apply send_signal_evolves.
  - intros [= <-]. apply send_signal_evolves.
  - intros [= <-]. apply evolves_refl.
  - intros [= <-]. apply evolves_refl.
Qed.

Lemma set_reader_ok units s e r :
  runner_ok units r → reader_ok e → runner_ok units (set_reader s e r).
Proof. intros (? & ? & ?) ?. by destruct s. Qed.

Lemma get_reader_ok units s r : runner_ok units r → reader_ok (get_reader s r).
Proof. intros (? & ? & ?). by destruct s. Qed.

Lemma step_runner_ok units e r r' :
  runner_ok units r → step_runner e r = Some r' → runner_ok units r'.
Proof.
  intros Hok. pose proof Hok as (Hin & Hout & Herr).
  destruct e; simpl; unfold while_running.
  - destruct (child r); [|done].
    destruct (child_write d (get_reader s r)) as [e'|] eqn:E; [|done].
    intros [= <-]. apply set_reader_ok; [done|].
    eapply child_write_ok, E. by eapply get_reader_ok.
  - destruct (child r); [|done]. intros [= <-].
    apply set_reader_ok; [done|]. eapply close_reader_ok, get_reader_ok, Hok.
  - destruct (child r); [|done]. intros [= <-].
    split_and!; [by apply close_writer_ok|done|done].
  - destruct (child r); [|done]. intros [= <-].
    split_and!; [by apply close_writer_ok|by apply close_reader_ok..].
  - destruct (run_writer _ _) as [e'|] eqn:E; [|done].
    intros [= <-]. split_and!; [|done|done]. eapply run_writer_ok, E. done.
  - destruct (run_reader _ _ _) as [e'|] eqn:E; [|done].
    intros [= <-]. apply set_reader_ok; [done|].
    eapply run_reader_ok, E. by eapply get_reader_ok.
  - by intros [= <-].
  - intros [= <-]. unfold terminate, send_signal. by destruct (child r).
  - intros [= <-]. unfold kill, send_signal. by destruct (child r).
  - by intros [= <-].
  - by intros [= <-].
Qed.

(** Once the child has ended and no pump is alive, nothing changes any
    more. *)
Lemma step_runner_frozen e r r' rc :
  all_done r rc → step_runner e r = Some r' → r' = r.
Proof.
  intros (Hc & Hin & Hout & Herr).
  destruct e; simpl; unfold while_running; rewrite ?Hc; try done.
  - unfold run_writer. unfold _stdin_writer in Hin.
    by destruct (w_task (p_stdin r)) as [[| |]|].
  - unfold run_reader. unfold _stdout_reader, _stderr_reader in *.
    destruct s; simpl.
    + by destruct (r_task (p_stdout r)) as [[| |]|].
    + by destruct (r_task (p_stderr r)) as [[| |]|].
  - by intros [= <-].
  - intros [= <-]. unfold terminate, send_signal. by rewrite ?Hc.
  - intros [= <-]. unfold kill, send_signal. by rewrite ?Hc.
  - by intros [= <-].
  - by intros [= <-].
Qed.

(** *** The greenlet in wait *)

Lemma static_evolves r0 r r' : static_ok r0 r → evolves r r' → static_ok r0 r'.
Proof.
  intros (H1 & H2 & H3 & H4 & H5 & H6 & H7 & H8).
  intros (E1 & E2 & _ & (Ea & Eb & _) & (Ec & Ed & _) & (Ee & Ef & _)).
  unfold static_ok, _stdin_writer, _stdout_reader, _stderr_reader in *.
  split_and!; try congruence; etrans; eauto.
Qed.

Lemma evolves_truthy r r' :
  evolves r r' →
  (truthy (_stdin_writer r) = false → truthy (_stdin_writer r') = false)
  ∧ (truthy (_stdout_reader r) = false → truthy (_stdout_reader r') = false)
  ∧ (truthy (_stderr_reader r) = false → truthy (_stderr_reader r') = false).
Proof.
  intros (_ & _ & _ & (_ & _ & Hin) & (_ & _ & Hout) & (_ & _ & Herr)).
  unfold _stdin_writer, _stdout_reader, _stderr_reader.
  split_and!; intros Ht.
  - by rewrite (Hin Ht).
  - by rewrite (Hout Ht).
  - by rewrite (Herr Ht).
Qed.

Lemma evolves_joined r r' pc : evolves r r' → joined r pc → joined r' pc.
Proof.
  intros Hev. pose proof (evolves_truthy _ _ Hev) as (Hin & Hout & Herr).
  destruct Hev as (_ & _ & Hc & _).
  destruct pc; simpl; intuition auto.
Qed.

Lemma wait_finish_not_timeout r c rc : wait_finish r c rc ≠ Raise TimeoutExpired.
Proof. unfold wait_finish. by case_match. Qed.

Lemma wait_body_ok r pc :
  joined r pc →
  match wait_body r pc with
  | inl pc' => joined r pc'
  | inr rc => all_done r rc
  end.
Proof.
  unfold wait_body, all_done.
  destruct pc; simpl; [destruct (child r) eqn:Hc; [done|]|..]; intros Hj;
    destruct (truthy (_stdin_writer r)) eqn:Hin; try done;
    destruct (truthy (_stdout_reader r)) eqn:Hout; try done;
    destruct (truthy (_stderr_reader r)) eqn:Herr; try done;
    simpl; intuition congruence.
Qed.

Lemma resume_ok r n c pc :
  joined r pc →
  expired c n = false ∨ n = started c →
  waiter_ok (Config r n (resume r c pc)).
Proof.
  intros Hj Ht. pose proof (wait_body_ok r pc Hj) as Hb.
  unfold resume, waiter_ok. destruct (wait_body r pc) as [pc'|rc]; simpl; [done|].
  pose proof (wait_finish_not_timeout r c rc).
  destruct (wait_finish r c rc) as [z|[| |]] eqn:E; try done; eauto.
Qed.

Lemma step_waiter_ok e r n w n' w' :
  waiter_ok (Config r n w) →
  step_waiter e r n w = Some (n', w') →
  is_wait_event e = true →
  waiter_ok (Config r n' w').
Proof.
  intros Hok Hstep Hev. destruct e; try done; simpl in Hstep.
  - injection Hstep as <- <-.
    destruct w as [|c pc|c res]; try done.
    unfold waiter_ok in *; simpl in *.
    destruct (expired c (S n)) eqn:E; simpl.
    + unfold expired in E. by destruct (timeout c).
    + destruct Hok as [Hj _]. auto.
  - destruct w as [|c pc|c res]; try done; injection Hstep as <- <-;
      apply resume_ok; simpl; auto.
  - destruct w as [|c pc|c res]; try done. injection Hstep as <- <-.
    destruct Hok as [Hj Ht]. by apply resume_ok.
Qed.

Lemma step_waiter_other e r n w :
  is_wait_event e = false → step_waiter e r n w = Some (n, w).
Proof. by destruct e. Qed.

Lemma step_runner_wait_event e r :
  is_wait_event e = true → step_runner e r = Some r.
Proof. by destruct e. Qed.

Lemma waiter_ok_evolves r r' n w :
  waiter_ok (Config r n w) →
  evolves r r' →
  (∀ rc, all_done r rc → r' = r) →
  waiter_ok (Config r' n w).
Proof.
  intros Hok Hev Hfrozen. unfold waiter_ok in *; simpl in *.
  destruct w as [|c pc|c [z|[| |]]]; try done.
  - destruct Hok as [Hj Ht]. split; [|done]. by eapply evolves_joined.
  - destruct Hok as (rc & Hd & ->). rewrite (Hfrozen rc Hd). eauto.
  - destruct Hok as (rc & Hd & ?). rewrite (Hfrozen rc Hd). eauto.
  - destruct Hok as (rc & Hd & ?). rewrite (Hfrozen rc Hd). eauto.
Qed.

(** *** Runs *)

Lemma step_inv r0 units e cfg cfg' :
  inv r0 units cfg → step e cfg = Some cfg' → inv r0 units cfg'.
Proof.
  intros (Hs & Hr & Hw). unfold step.
  destruct (step_runner e (runner cfg)) as [r'|] eqn:Er; [|done].
  destruct (step_waiter e (runner cfg) (now cfg) (waiter cfg)) as [[n' w']|] eqn:Ew; [|done].
  simpl. intros [= <-].
  pose proof (step_runner_evolves _ _ _ Er) as Hev.
  split_and!; simpl.
  - by eapply static_evolves.
  - by eapply step_runner_ok.
  - destruct (is_wait_event e) eqn:Hwe.
    + rewrite step_runner_wait_event in Er by done. injection Er as <-.
      eapply step_waiter_ok; [|exact Ew|done]. by destruct cfg.
    + rewrite step_waiter_other in Ew by done. injection Ew as <- <-.
      eapply waiter_ok_evolves; [|exact Hev|].
      * by destruct cfg.
      * intros rc Hd. by eapply step_runner_frozen.
Qed.

Lemma run_events_inv r0 units tr cfg cfg' :
  inv r0 units cfg → run_events tr cfg = Some cfg' → inv r0 units cfg'.
Proof.
  revert cfg. induction tr as [|e tr IH]; intros cfg Hinv; simpl.
  - by intros [= <-].
  - destruct (step e cfg) as [cfg1|] eqn:E; [|done].
    apply IH. by eapply step_inv.
Qed.

Lemma static_ok_refl r : static_ok r r.
Proof. by unfold static_ok. Qed.

Lemma init_ok args stdout stderr stdin safe_args un :
  runner_ok (source_units stdin) (init args stdout stderr stdin safe_args un).
Proof.
  unfold runner_ok, writer_ok, reader_ok; simpl.
  split_and!; try done; try by destruct (out_is_callable _).
  by destruct (in_is_source _).
  by destruct (in_is_source _).
Qed.

Lemma start_inv args stdout stderr stdin safe_args un :
  inv (init args stdout stderr stdin safe_args un) (source_units stdin)
      (start args stdout stderr stdin safe_args un).
Proof.
  split_and!; [apply static_ok_refl|apply init_ok|done].
Qed.

Lemma reachable_inv args stdout stderr stdin safe_args un tr cfg :
  run_events tr (start args stdout stderr stdin safe_args un) = Some cfg →
  inv (init args stdout stderr stdin safe_args un) (source_units stdin) cfg.
Proof. apply run_events_inv, start_inv. Qed.




Lemma getvalue_trimmed calls :
  getvalue true calls = concat ((λ l, l ++ [newline]) <$> calls).
Proof.
  unfold getvalue; simpl. unfold write_trimmed.
  cut (∀ acc, foldl (λ buf line : data, buf ++ line ++ [newline]) acc calls
              = acc ++ concat ((λ l, l ++ [newline]) <$> calls)).
  { intros Hc. apply (Hc []). }
  induction calls as [|l calls IH]; intros acc; simpl.
  - by rewrite app_nil_r.
  - by rewrite IH, !app_assoc.
Qed.


(** *** Signals *)





Lemma is_Some_if {A} (b : bool) (x : A) :
  is_Some (if b then Some x else None) ↔ b = true.
Proof.
  destruct b; split; intros Hb; [done|by eexists|by apply is_Some_None in Hb|done].
Qed.

(** *** The claims on wait *)

(** Once [wait] is over without a timeout the child has ended and no
    pump is alive. *)
Lemma wait_done args stdout stderr stdin safe_args un tr cfg c res :
  run_events tr (start args stdout stderr stdin safe_args un) = Some cfg →
  waiter cfg = Done c res →
  res ≠ Raise TimeoutExpired →
  ∃ rc, all_done (runner cfg) rc ∧ res = wait_finish (runner cfg) c rc.
Proof.
  intros Hrun Hw Hres.
  destruct (reachable_inv _ _ _ _ _ _ _ _ Hrun) as (_ & _ & Hwok).
  unfold waiter_ok in Hwok. rewrite Hw in Hwok.
  destruct res as [z|[| |]]; done.
Qed.

(** The pumps are attached to the streams that got a callable or data. *)
Lemma pumps_attached args stdout stderr stdin safe_args un tr cfg :
  run_events tr (start args stdout stderr stdin safe_args un) = Some cfg →
  (is_Some (_stdin_writer (runner cfg)) ↔ in_is_source stdin = true)
  ∧ (is_Some (_stdout_reader (runner cfg)) ↔ out_is_callable stdout = true)
  ∧ (is_Some (_stderr_reader (runner cfg)) ↔ out_is_callable stderr = true).
Proof.
  intros Hrun.
  destruct (reachable_inv _ _ _ _ _ _ _ _ Hrun)
    as ((_ & _ & _ & _ & _ & Hsi & Hso & Hse) & _ & _).
  split_and!.
  - rewrite Hsi. apply is_Some_if.
  - rewrite Hso. apply is_Some_if.
  - rewrite Hse. apply is_Some_if.
Qed.





(** *** The stdin pump *)





(** *** The stream properties *)

Lemma stream_properties r :
  stdout r = (if truthy (_stdout_reader r)
              then Ok (proc_stream (r_arg (p_stdout r)) ProcStdout)
              else Raise (RuntimeError "not available"))
  ∧ stderr r = (if truthy (_stderr_reader r)
                then Ok (proc_stream (r_arg (p_stderr r)) ProcStderr)
                else Raise (RuntimeError "not available"))
  ∧ stdin r = (if truthy (_stdin_writer r)
               then Ok (proc_stream (w_arg (p_stdin r)) ProcStdin)
               else Raise (RuntimeError "not available")).
Proof.
  unfold stdout, stderr, stdin.
  split_and!; by destruct (truthy _).
Qed.

(** C10, amended: at any time of a run, a stream property raises
    [RuntimeError("not available")] when no pump was attached to its
    stream, and also when the attached pump has ended (a dead greenlet is
    false); while the attached pump is alive the property returns the
    pipe of the process. *)
Theorem stream_property_while_pump_alive args stdout_arg stderr_arg stdin_arg safe_args un tr cfg :
  run_events tr (start args stdout_arg stderr_arg stdin_arg safe_args un) = Some cfg →
  (out_is_callable stdout_arg = false →
     stdout (runner cfg) = Raise (RuntimeError "not available"))
  ∧ (out_is_callable stderr_arg = false →
     stderr (runner cfg) = Raise (RuntimeError "not available"))
  ∧ (in_is_source stdin_arg = false →
     stdin (runner cfg) = Raise (RuntimeError "not available"))
  ∧ (_stdout_reader (runner cfg) = Some Active →
     stdout (runner cfg) = Ok (Some ProcStdout))
  ∧ (_stderr_reader (runner cfg) = Some Active →
     stderr (runner cfg) = Ok (Some ProcStderr))
  ∧ (_stdin_writer (runner cfg) = Some Active →
     stdin (runner cfg) = Ok (Some ProcStdin))
  ∧ (∀ g, _stdout_reader (runner cfg) = Some g → g ≠ Active →
     stdout (runner cfg) = Raise (RuntimeError "not available"))
  ∧ (∀ g, _stderr_reader (runner cfg) = Some g → g ≠ Active →
     stderr (runner cfg) = Raise (RuntimeError "not available"))
  ∧ (∀ g, _stdin_writer (runner cfg) = Some g → g ≠ Active →
     stdin (runner cfg) = Raise (RuntimeError "not available")).
Proof.
  intros Hrun.
  destruct (reachable_inv _ _ _ _ _ _ _ _ Hrun)
    as ((_ & _ & Hai & Hao & Hae & Hsi & Hso & Hse) & _ & _).
  assert (Hso' : is_Some (_stdout_reader (runner cfg)) ↔ out_is_callable stdout_arg = true)
    by (rewrite Hso; apply is_Some_if).
  assert (Hse' : is_Some (_stderr_reader (runner cfg)) ↔ out_is_callable stderr_arg = true)
    by (rewrite Hse; apply is_Some_if).
  assert (Hsi' : is_Some (_stdin_writer (runner cfg)) ↔ in_is_source stdin_arg = true)
    by (rewrite Hsi; apply is_Some_if).
  unfold stdout, stderr, stdin. simpl in Hai, Hao, Hae.
  split_and!.
  - intros Hc. destruct (_stdout_reader (runner cfg)) eqn:E; [|done].
    assert (out_is_callable stdout_arg = true) by (apply Hso'; by eexists).
    congruence.
  - intros Hc. destruct (_stderr_reader (runner cfg)) eqn:E; [|done].
    assert (out_is_callable stderr_arg = true) by (apply Hse'; by eexists).
    congruence.
  - intros Hc. destruct (_stdin_writer (runner cfg)) eqn:E; [|done].
    assert (in_is_source stdin_arg = true) by (apply Hsi'; by eexists).
    congruence.
  - intros Ht. rewrite Ht. simpl. rewrite Hao.
    assert (out_is_callable stdout_arg = true) by (apply Hso'; by eexists).
    by destruct stdout_arg.
  - intros Ht. rewrite Ht. simpl. rewrite Hae.
    assert (out_is_callable stderr_arg = true) by (apply Hse'; by eexists).
    by destruct stderr_arg.
  - intros Ht. rewrite Ht. simpl. rewrite Hai.
    assert (in_is_source stdin_arg = true) by (apply Hsi'; by eexists).
    by destruct stdin_arg.
  - intros g -> Hg. by destruct g.
  - intros g -> Hg. by destruct g.
  - intros g -> Hg. by destruct g.
Qed.

(** C10, as it is stated, fails: with a callable for stdout a reader
    pump is attached and stdout is piped; once the child has ended and the
    pump has read the end of the file the pump is dead, its greenlet is
    false, and the property [stdout] raises [RuntimeError("not
    available")] instead of returning the pipe. *)
Lemma stdout_unavailable_after_pump_finished :
  ∃ cfg,
    run_events [ChildExit 0; RunReader Stdout 0]
      (start ["true"] OutCallable OutNone InNone None true) = Some cfg
    ∧ out_is_callable OutCallable = true
    ∧ _stdout_reader (runner cfg) = Some Finished
    ∧ proc_stream (r_arg (p_stdout (runner cfg))) ProcStdout = Some ProcStdout
    ∧ stdout (runner cfg) = Raise (RuntimeError "not available")
    ∧ stdout (runner cfg) ≠ Ok (proc_stream (r_arg (p_stdout (runner cfg))) ProcStdout).
Proof. eexists. split; [reflexivity|]. by split_and!. Qed.

(** *** Runs of an example *)





Lemma stream_property_while_pump_alive_witness :
  ∃ cfg,
    run_events [ChildWrite Stdout (text "x")]
      (start ["true"] OutCallable OutNone (InBlob (text "y")) None true) = Some cfg
    ∧ stdout (runner cfg) = Ok (Some ProcStdout)
    ∧ stdin (runner cfg) = Ok (Some ProcStdin)
    ∧ stderr (runner cfg) = Raise (RuntimeError "not available").
Proof.
  destruct (run_events _ _) as [cfg|] eqn:Hrun; [|by vm_compute in Hrun].
  pose proof Hrun as Hcfg. vm_compute in Hcfg. injection Hcfg as Hcfg. subst cfg.
  destruct (stream_property_while_pump_alive _ _ _ _ _ _ _ _ Hrun)
    as (_ & Herr & _ & Hout & _ & Hin & _).
  eexists. split; [reflexivity|].
  split; [exact (Hout eq_refl)|]. split; [exact (Hin eq_refl)|exact (Herr eq_refl)].
Defined.

End ProcFacts.

(** ** More on version strings *)

Module VersionMore.
Import Version Text.

Lemma append_cons c a b : String c a +:+ b = String c (a +:+ b).
Proof. reflexivity. Qed.

Lemma append_nil_l b : "" +:+ b = b.
Proof. reflexivity. Qed.

Lemma has_char_app c a b : has_char c (a +:+ b) = has_char c a || has_char c b.
Proof.
  induction a as [|d a IH]; [done|].
  rewrite append_cons. simpl. by rewrite IH, orb_assoc.
Qed.

Lemma split_plain sep a : has_char sep a = false → split sep a = [a].
Proof.
  induction a as [|c a IH]; simpl; [done|].
  destruct (Ascii.eqb c sep); simpl; [done|].
  intros Ha. by rewrite IH.
Qed.

Lemma split_app sep a rest :
  has_char sep a = false →
  split sep (a +:+ String sep rest) = a :: split sep rest.
Proof.
  induction a as [|c a IH].
  - intros _. rewrite append_nil_l. simpl. by rewrite Ascii.eqb_refl.
  - rewrite append_cons. simpl.
    destruct (Ascii.eqb c sep); simpl; [done|].
    intros Ha. by rewrite IH.
Qed.

Lemma strip_suffix_app sep a rest :
  has_char sep a = false → strip_suffix sep (a +:+ String sep rest) = a.
Proof.
  induction a as [|c a IH].
  - intros _. rewrite append_nil_l. simpl. by rewrite Ascii.eqb_refl.
  - rewrite append_cons. simpl.
    destruct (Ascii.eqb c sep); simpl; [done|].
    intros Ha. by rewrite IH.
Qed.

Lemma prefix_nil s : String.prefix "" s = true.
Proof. by destruct s. Qed.

Lemma prefix_app n b : String.prefix n (n +:+ b) = true.
Proof.
  induction n as [|c n IH]; [apply prefix_nil|].
  rewrite append_cons. simpl. by destruct (ascii_dec c c).
Qed.

Lemma contains_prefix n h : String.prefix n h = true → contains n h = true.
Proof. destruct h; simpl; by intros ->. Qed.

Lemma contains_app n a b : contains n (a +:+ n +:+ b) = true.
Proof.
  induction a as [|c a IH].
  - rewrite append_nil_l. apply contains_prefix, prefix_app.
  - rewrite append_cons. simpl. rewrite IH. apply orb_true_r.
Qed.

Lemma contains_eks_dash s : has_char "-" s = false → contains "-eks-" s = false.
Proof.
  induction s as [|c s IH]; [done|].
  cbn [has_char contains String.prefix].
  intros [Hc Hs]%orb_false_iff. rewrite (IH Hs).
  destruct (ascii_dec "-" c) as [<-|]; [|done].
  by rewrite Ascii.eqb_refl in Hc.
Qed.

Lemma join_cons2 sep x y l :
  join sep (x :: y :: l) = x +:+ sep +:+ join sep (y :: l).
Proof. reflexivity. Qed.

(** X1: splitting on a separator and joining with it gives the string
    back; so the version that [setup_client] logs with
    [".".join(self.server_version)] is [git_version[1:]], whatever the
    server sent. *)
Theorem join_split sep s :
  join (String sep "") (split sep s) = s
  ∧ ∀ raw, join "." (server_version raw) = tail (git_version raw).
Proof.
  assert (Hjs : ∀ c t, join (String c "") (split c t) = t).
  { intros c t. induction t as [|d t IH]; simpl; [done|].
    destruct (Ascii.eqb d c) eqn:E.
    - apply Ascii.eqb_eq in E as ->.
      destruct (split c t) as [|h l] eqn:Es; [by destruct (VersionFacts.split_nonempty c t)|].
      rewrite join_cons2, append_nil_l, append_cons, append_nil_l. by rewrite IH.
    - destruct (split c t) as [|h l] eqn:Es; [by destruct (VersionFacts.split_nonempty c t)|].
      destruct l as [|h' l].
      + simpl in *. by rewrite IH.
      + rewrite join_cons2, append_cons. by rewrite <- IH, join_cons2. }
  split; [apply Hjs|]. intros raw. apply Hjs.
Qed.

(** X2: a version string has a minor field, [server_version[1]], exactly
    when there is a "." after its first character (once an "-eks-"
    suffix is stripped). *)
Theorem minor_field_iff_dot raw :
  is_Some (server_version raw !! 1%nat) ↔ has_char "." (tail (git_version raw)) = true.
Proof.
  unfold server_version. generalize (tail (git_version raw)). intros s.
  induction s as [|c s IH]; simpl.
  - split; [by intros [? ?]|done].
  - destruct (Ascii.eqb c ".") eqn:E; simpl.
    + destruct (split "." s) as [|h l] eqn:Es; [by destruct (VersionFacts.split_nonempty "." s)|].
      split; [done|]. intros _. by eexists.
    + destruct (split "." s) as [|h l] eqn:Es; [by destruct (VersionFacts.split_nonempty "." s)|].
      simpl in IH. done.
Qed.

(** X3: a version "cMAJ.MIN.PATCH-eks-HASH", whatever the first
    character [c] (it is dropped unread) and the hash, has the components
    MAJ, MIN, PATCH and the git version "cMAJ.MIN.PATCH"; so has the plain
    "cMAJ.MIN.PATCH". *)
Theorem eks_version_components c maj min patch hash :
  c ≠ "-"%char →
  plain maj = true → plain min = true → plain patch = true →
  let core := String c (maj +:+ "." +:+ min +:+ "." +:+ patch) in
  server_version (core +:+ "-eks-" +:+ hash) = [maj; min; patch]
  ∧ server_git_version (core +:+ "-eks-" +:+ hash) = core
  ∧ server_version core = [maj; min; patch]
  ∧ server_git_version core = core.
Proof.
  unfold plain. intros Hc [Hmaj1 Hmaj2]%andb_true_iff [Hmin1 Hmin2]%andb_true_iff
    [Hp1 Hp2]%andb_true_iff.
  set (core := String c (maj +:+ "." +:+ min +:+ "." +:+ patch)).
  apply negb_true_iff in Hmaj1, Hmaj2, Hmin1, Hmin2, Hp1, Hp2.
  assert (Hdash : has_char "-" core = false).
  { subst core. simpl. rewrite !has_char_app, Hmaj2, Hmin2, Hp2. simpl.
    apply orb_false_iff. split; [|done]. by apply Ascii.eqb_neq. }
  assert (Hsplit : split "." (tail core) = [maj; min; patch]).
  { subst core. simpl.
    change (maj +:+ "." +:+ min +:+ "." +:+ patch)
      with (maj +:+ String "." (min +:+ String "." patch)).
    rewrite split_app by done. rewrite split_app by done.
    by rewrite split_plain. }
  assert (Hgit : git_version (core +:+ "-eks-" +:+ hash) = core).
  { unfold git_version. rewrite contains_app.
    rewrite VersionFacts.first_split.
    change ("-eks-" +:+ hash) with (String "-" ("eks-" +:+ hash)).
    by apply strip_suffix_app. }
  assert (Hgit' : git_version core = core).
  { unfold git_version. by rewrite contains_eks_dash. }
  unfold server_version, server_git_version. rewrite Hgit, Hgit'. done.
Qed.

Lemma eks_version_components_witness :
  plain "1" = true ∧ plain "31" = true ∧ plain "0" = true
  ∧ server_version "v1.31.0-eks-a737599" = ["1"; "31"; "0"]
  ∧ server_git_version "v1.31.0-eks-a737599" = "v1.31.0".
Proof.
  assert (Hc : "v"%char ≠ "-"%char) by discriminate.
  destruct (eks_version_components "v" "1" "31" "0" "a737599" Hc eq_refl eq_refl eq_refl)
    as (H1 & H2 & _).
  split; [reflexivity|]. split; [reflexivity|]. split; [reflexivity|].
  split; [exact H1|exact H2].
Defined.

End VersionMore.

(** ** More on the client cache *)

Module CacheMore.
Import Cache CacheFacts.

(** The positive decimal of a number and back. *)
Lemma str_int_inj n m : str (MInt n) = str (MInt m) → n = m.
Proof.
  simpl. intros Hs.
  assert (Hn : ∀ z, NilZero.int_of_string (NilZero.string_of_int (Z.to_int z))
                    = Some (Z.to_int z)).
  { intros z. apply NilZero.isi; destruct z; simpl; try done;
      intros [= Hp]; by apply DecimalPos.Unsigned.to_uint_nonnil in Hp. }
  apply DecimalZ.to_int_inj.
  pose proof (Hn n) as H1. rewrite Hs, Hn in H1. congruence.
Qed.

Section WithPlatform.
Context `{Platform}.

Lemma get_cache_dir_eq category sub w :
  let d := path_join (path_join app_cache_dir category) (default "" sub) in
  get_cache_dir category sub w = (Ok d, with_fs (ensure_dir d (fs w)) w).
Proof.
  assert (Hd : match sub with
               | Some s => path_join (path_join app_cache_dir category) s
               | None => path_join app_cache_dir category
               end = path_join (path_join app_cache_dir category) (default "" sub)).
  { destruct sub; [done|]. simpl. unfold path_join at 2. by case_decide. }
  simpl. unfold get_cache_dir, get_app_cache_dir. rewrite Hd.
  unfold ensure_dir, with_fs, lift_fs, mkdir.
  unfold mbind, M_bind, mret, M_ret, get_fs, put_fs; simpl.
  destruct (path_exists (fs w) _) eqn:E; simpl.
  - by destruct w.
  - by rewrite E.
Qed.

(** X4: [get_cache_dir] returns the directory of the category (and
    sub-category; [None] and the empty string are the same) below the
    application's cache directory; afterwards the directory exists,
    nothing that existed is gone, only the directory and ancestors of it
    were made, and a second call changes nothing. *)
Theorem get_cache_dir_makes_directory category sub w :
  category ≠ "" →
  ∃ d w',
    get_cache_dir category sub w = (Ok d, w')
    ∧ d = path_join (app_cache_dir ++ [category]) (default "" sub)
    ∧ path_exists (fs w') d = true
    ∧ fs w ⊆ fs w'
    ∧ (∀ q, q ∈ fs w' → q ∈ fs w ∨ q `prefix_of` d)
    ∧ installs w' = installs w
    ∧ get_cache_dir category sub w' = (Ok d, w').
Proof.
  intros Hc. pose proof (get_cache_dir_eq category sub w) as Heq. simpl in Heq.
  assert (Hp : path_join app_cache_dir category = app_cache_dir ++ [category]).
  { unfold path_join. by case_decide. }
  rewrite Hp in Heq.
  set (d := path_join (app_cache_dir ++ [category]) (default "" sub)) in *.
  assert (Hd : d ≠ []).
  { subst d. unfold path_join. case_decide; by destruct app_cache_dir. }
  eexists _, _. split; [exact Heq|]. split; [done|].
  assert (Hin : d ∈ ensure_dir d (fs w)) by by apply ensure_dir_elem.
  split; [by apply bool_decide_eq_true|]. split.
  { intros q Hq. by apply ensure_dir_mono. }
  split.
  { intros q [Hq|[Hq _]]%ensure_dir_inv; auto. }
  split; [done|].
  pose proof (get_cache_dir_eq category sub (with_fs (ensure_dir d (fs w)) w)) as Heq2.
  simpl in Heq2. rewrite Hp in Heq2. fold d in Heq2. rewrite Heq2. f_equal.
  unfold with_fs; simpl. f_equal.
  assert (Hex : path_exists (ensure_dir d (fs w)) d = true)
    by by apply bool_decide_eq_true.
  unfold ensure_dir at 1. by rewrite Hex.
Qed.

(** X5: two different integer versions never share a cache directory,
    and neither directory is below the other; with an installer that
    removes nothing, installing one version leaves a cached other
    version cached. *)
Theorem integer_majors_have_own_directories n m w r w' :
  installer_keeps →
  n ≠ m →
  major_dir (MInt n) ≠ major_dir (MInt m)
  ∧ ¬ major_dir (MInt n) `prefix_of` major_dir (MInt m)
  ∧ (install_python_k8s_client run (MInt n) w = (r, w') →
     path_exists (fs w) (major_dir (MInt m)) = true →
     path_exists (fs w') (major_dir (MInt m)) = true).
Proof.
  intros Hkeep Hnm.
  assert (Hdir : ∀ z, major_dir (MInt z) = python_cache_dir ++ [str (MInt z)]).
  { intros z. unfold major_dir, path_join. case_decide as Hz; [|done].
    by destruct (str_int_nonempty z). }
  assert (Hne : str (MInt n) ≠ str (MInt m)).
  { intros Hs. by apply Hnm, str_int_inj. }
  split_and!.
  - rewrite !Hdir. intros Heq%app_inv_head. injection Heq as Heq. by apply Hne.
  - rewrite !Hdir. intros [k Hk]. rewrite <- app_assoc in Hk.
    apply app_inv_head in Hk. injection Hk as Hk _. by apply Hne.
  - rewrite install_eq; simpl. intros Hinst Hm.
    apply bool_decide_eq_true in Hm. apply bool_decide_eq_true.
    destruct (path_exists _ (major_dir (MInt n))); injection Hinst as <- <-; simpl.
    + by apply ensure_dir_mono.
    + apply Hkeep, elem_of_union_l. by apply ensure_dir_mono.
Qed.

Lemma ensure_dir_well_formed p f :
  Examples.well_formed f → Examples.well_formed (ensure_dir p f).
Proof.
  intros Hwf a q [Ha|[Ha Hne]]%ensure_dir_inv Hq Hq0.
  - apply ensure_dir_mono. by eapply Hwf.
  - unfold ensure_dir. destruct (path_exists f p) eqn:E.
    + apply bool_decide_eq_true in E. eapply Hwf; [exact E| |done]. by etrans.
    + apply elem_of_union_r, elem_of_list_to_set.
      destruct Hq as [k1 ->]. destruct Ha as [k2 ->].
      unfold ancestors. apply list_elem_of_fmap. exists (length q). split.
      * rewrite <- app_assoc. by rewrite take_app_length.
      * apply elem_of_seq. rewrite !length_app. destruct q; [done|simpl; lia].
Qed.

Lemma rmtree_well_formed p f :
  Examples.well_formed f → Examples.well_formed (rmtree p f).
Proof.
  intros Hwf a q [Ha Hn]%elem_of_rmtree Hq Hq0. apply elem_of_rmtree. split.
  - by eapply Hwf.
  - intros Hp. apply Hn. by etrans.
Qed.

(** X6: on a well-formed file system [clear_k8s_cache] is idempotent and
    keeps the file system well formed; it never fails and runs no
    installer; and as it asks [get_cache_dir] for the directory before it
    removes it, the application's cache directory exists afterwards, also
    when there was no cache at all. *)
Theorem clear_k8s_cache_idempotent w :
  Examples.well_formed (fs w) →
  ∃ w1,
    clear_k8s_cache w = (Ok tt, w1)
    ∧ clear_k8s_cache w1 = (Ok tt, w1)
    ∧ Examples.well_formed (fs w1)
    ∧ (app_cache_dir ≠ [] → path_exists (fs w1) app_cache_dir = true)
    ∧ path_exists (fs w1) python_cache_dir = false
    ∧ installs w1 = installs w.
Proof.
  intros Hwf. eexists. split; [apply clear_k8s_cache_eq|].
  set (g := rmtree python_cache_dir (ensure_dir python_cache_dir (fs w))).
  assert (Hwg : Examples.well_formed g).
  { by apply rmtree_well_formed, ensure_dir_well_formed. }
  assert (Hpy : python_cache_dir ∉ g).
  { intros [_ Hn]%elem_of_rmtree. by apply Hn. }
  assert (Happ : app_cache_dir ≠ [] → app_cache_dir ∈ g).
  { intros Hne. apply elem_of_rmtree. split.
    - eapply (ensure_dir_well_formed _ _ Hwf python_cache_dir); [|by eexists|done].
      apply ensure_dir_elem, python_cache_dir_nonempty.
    - rewrite python_cache_dir_eq. intros [k Hk].
      apply (f_equal length) in Hk. rewrite !length_app in Hk. simpl in Hk. lia. }
  split_and!; [|done| |by apply bool_decide_eq_false|done].
  - rewrite clear_k8s_cache_eq. f_equal. unfold with_fs; simpl. f_equal. fold g.
    apply set_eq. intros q. rewrite elem_of_rmtree. split.
    + intros [[Hq|[Hq Hq0]]%ensure_dir_inv Hn]; [done|].
      apply elem_of_rmtree. split; [|done].
      eapply (ensure_dir_well_formed _ _ Hwf python_cache_dir); [|exact Hq|done].
      apply ensure_dir_elem, python_cache_dir_nonempty.
    + intros Hq. split; [by apply ensure_dir_mono|].
      by apply elem_of_rmtree in Hq as [_ ?].
  - intros Hne. by apply bool_decide_eq_true, Happ.
Qed.






(** X8: a wrapper that already holds a server version picks the client
    by the minor field it holds, without asking the cluster first; the
    directory of that client goes in front of [sys.path], and only then is
    the server version read again from the cluster. *)
Theorem setup_client_uses_stored_version self w v m self1 w1 :
  server_version self = Some v →
  v !! 1%nat = Some m →
  setup_client (self, w) = (Ok tt, (self1, w1)) →
  sys_path w1 = path_str (major_dir (MStr m)) :: sys_path w
  ∧ (installs w1 = installs w
     ∨ installs w1 = installs w ++ [pip_command (MStr m) (major_dir (MStr m))])
  ∧ server_version self1 = Some (Version.server_version cluster_git_version)
  ∧ server_git_version self1 = Some (Version.server_git_version cluster_git_version).
Proof.
  intros Hv Hm.
  assert (Hset : is_set (server_version self) = true).
  { rewrite Hv. by destruct v. }
  rewrite (setup_client_eq self w m); [|by rewrite Hset, Hv].
  destruct (install_python_k8s_client run (MStr m) w) as [[d|e'] w'] eqn:Hi; [|done].
  intros [= <- <-]. simpl.
  destruct (install_result _ _ _ _ Hi) as [[= ->]|(? & ? & ?)]; [|done].
  rewrite (install_sys_path _ _ _ _ Hi).
  split_and!; [done| |done|done].
  by eapply install_log.
Qed.

End WithPlatform.

#[local] Existing Instance platform_1_30_2.

Lemma get_cache_dir_makes_directory_witness :
  "python" ≠ ""
  ∧ ∃ d w',
      get_cache_dir "python" (Some "wheels") empty_world = (Ok d, w')
      ∧ d = app_cache_dir ++ ["python"; "wheels"]
      ∧ path_exists (fs w') d = true.
Proof.
  assert (Hc : "python" ≠ "") by discriminate.
  split; [exact Hc|].
  destruct (get_cache_dir_makes_directory "python" (Some "wheels") empty_world Hc)
    as (d & w' & Heq & Hd & Hex & _).
  exists d, w'. split; [exact Heq|]. split; [|exact Hex].
  rewrite Hd. reflexivity.
Defined.

Lemma integer_majors_have_own_directories_witness :
  installer_keeps ∧ 29%Z ≠ 30%Z
  ∧ major_dir (MInt 29) ≠ major_dir (MInt 30).
Proof.
  assert (Hkeep : installer_keeps).
  { intros argv f p Hp. exact Hp. }
  assert (Hnm : 29%Z ≠ 30%Z) by discriminate.
  split; [exact Hkeep|]. split; [exact Hnm|].
  exact (proj1 (@integer_majors_have_own_directories platform_1_30_2 29 30
                  empty_world (Ok []) empty_world Hkeep Hnm)).
Defined.

Lemma clear_k8s_cache_idempotent_witness :
  Examples.well_formed (fs empty_world)
  ∧ ∃ w1,
      clear_k8s_cache empty_world = (Ok tt, w1)
      ∧ clear_k8s_cache w1 = (Ok tt, w1)
      ∧ path_exists (fs w1) ["home"; "nomw"; ".cache"; "nomw"] = true
      ∧ path_exists (fs w1) ["home"; "nomw"; ".cache"; "nomw"; "python"] = false.
Proof.
  assert (Hwf : Examples.well_formed (fs empty_world)).
  { intros p q Hp. by apply not_elem_of_empty in Hp. }
  split; [exact Hwf|].
  destruct (@clear_k8s_cache_idempotent platform_1_30_2 empty_world Hwf)
    as (w1 & H1 & H2 & _ & Happ & Hpy & _).
  exists w1. split; [exact H1|]. split; [exact H2|]. split; [|exact Hpy].
  apply Happ. discriminate.
Defined.


Lemma setup_client_uses_stored_version_witness :
  ∃ self1 w1,
    setup_client (Wrapper (Some ["1"; "29"; "4"]) (Some "v1.29.4") true ["29"; "0"; "0"],
                  empty_world) = (Ok tt, (self1, w1))
    ∧ sys_path w1 = ["/home/nomw/.cache/nomw/python/29"]
    ∧ server_version self1 = Some ["1"; "30"; "2"].
Proof.
  destruct (setup_client (Wrapper (Some ["1"; "29"; "4"]) (Some "v1.29.4") true
                            ["29"; "0"; "0"], empty_world))
    as [r [self1 w1]] eqn:H1.
  pose proof H1 as Hc. vm_compute in Hc. injection Hc as <- <- <-.
  destruct (@setup_client_uses_stored_version platform_1_30_2
              (Wrapper (Some ["1"; "29"; "4"]) (Some "v1.29.4") true ["29"; "0"; "0"])
              empty_world ["1"; "29"; "4"] "29" _ _ eq_refl eq_refl H1)
    as (Hpath & _ & Hsv & _).
  eexists _, _. split; [reflexivity|]. split; [exact Hpath|exact Hsv].
Defined.

End CacheMore.

(** ** The command line *)

Module AppFacts.
Import Cache CacheFacts App.

Section WithPlatform.
Context `{Platform}.

Lemma pre_cache_raises v versions disable_patching w :
  ∃ msg, pre_cache_k8s_clients (v :: versions) disable_patching w
         = (Raise (TypeError msg), w).
Proof. eexists. reflexivity. Qed.

(** X9: [main] never runs the installer.  A request to pre-cache
    clients ([--pre-cache-k8s-client] with at least one version) ends
    with status 1 and leaves the world as it was: the call of
    [install_python_k8s_client] has one argument too many, so that no
    directory is made and nothing is installed.  With
    [--clear-k8s-cache] the cache is cleared and [main] returns [None];
    [--pre-cache-k8s-client-no-patch] without versions exits with
    status 2 before anything is done. *)
Theorem main_runs_no_installer a w :
  installs (main a w).2 = installs w
  ∧ (clear_k8s_cache_arg a = false →
     versions_given (pre_cache_k8s_client a) = true →
     main a w = (Ok (Some 1%Z), w))
  ∧ (versions_given (pre_cache_k8s_client a) = false →
     is_Some (pre_cache_k8s_client_no_patch a) →
     main a w = (Raise (SystemExit 2), w))
  ∧ (clear_k8s_cache_arg a = true →
     versions_given (pre_cache_k8s_client a) = true
     ∨ pre_cache_k8s_client_no_patch a = None →
     main a w = (Ok None, (clear_k8s_cache w).2)).
Proof.
  assert (Hpre : versions_given (pre_cache_k8s_client a) = true →
            pre_cache_k8s_clients (default [] (pre_cache_k8s_client a))
              (pre_cache_k8s_client_no_patch a) w
            = (Raise (TypeError "install_python_k8s_client() takes 5 positional arguments"), w)).
  { destruct (pre_cache_k8s_client a) as [[|v vs]|]; done. }
  unfold main. split_and!.
  - destruct (versions_given (pre_cache_k8s_client a)) eqn:Hv; simpl.
    + destruct (clear_k8s_cache_arg a).
      * rewrite clear_k8s_cache_eq. done.
      * by rewrite Hpre.
    + case_bool_decide; simpl; [done|].
      destruct (clear_k8s_cache_arg a); [|done].
      rewrite clear_k8s_cache_eq. done.
  - intros -> Hv. rewrite Hv. simpl. by rewrite Hpre.
  - intros -> Hn. simpl. by rewrite (bool_decide_eq_true_2 _ Hn).
  - intros -> Hor. rewrite clear_k8s_cache_eq. simpl.
    destruct Hor as [->| ->]; simpl; [done|].
    by destruct (versions_given _).
Qed.

End WithPlatform.

Lemma main_runs_no_installer_witness :
  @main platform_1_30_2 (Args false (Some [29; 30]%Z) (Some true)) empty_world
  = (Ok (Some 1%Z), empty_world).
Proof.
  exact (proj1 (proj2 (@main_runs_no_installer platform_1_30_2
                         (Args false (Some [29; 30]%Z) (Some true)) empty_world))
           eq_refl eq_refl).
Defined.

End AppFacts.

(** ** More on the process runner *)

Module ProcMore.
Import Proc ProcFacts ProcInv.

Lemma run_events_preserves (P : config → Prop) :
  (∀ e cfg cfg', P cfg → step e cfg = Some cfg' → P cfg') →
  ∀ tr cfg cfg', P cfg → run_events tr cfg = Some cfg' → P cfg'.
Proof.
  intros Hstep tr. induction tr as [|e tr IH]; intros cfg cfg' HP; simpl.
  - by intros [= <-].
  - destruct (step e cfg) as [cfg1|] eqn:E; [|done].
    apply IH. by eapply Hstep.
Qed.



(** X11: what [wait] returns.  Once a call of [wait] is over without a
    timeout and the child has ended with [rc], the call has returned [rc]
    if it was made with [fail=False] or [rc] is 0; and a call never
    returns anything but the exit code of the child. *)
Theorem wait_returns_exit_code args stdout stderr stdin safe_args un tr cfg c res rc :
  run_events tr (start args stdout stderr stdin safe_args un) = Some cfg →
  waiter cfg = Done c res →
  res ≠ Raise TimeoutExpired →
  child (runner cfg) = Exited rc →
  (fail c = false ∨ rc = 0%Z → res = Ok rc)
  ∧ (∀ z, res = Ok z → z = rc ∧ (fail c = false ∨ z = 0%Z)).
Proof.
  intros Hrun Hw Hres Hchild.
  destruct (wait_done _ _ _ _ _ _ _ _ _ _ Hrun Hw Hres) as (rc' & (Hc & _) & ->).
  rewrite Hchild in Hc. injection Hc as <-.
  unfold wait_finish. split.
  - intros [-> | ->]; [done|]. by rewrite andb_false_r.
  - intros z. destruct (fail c); simpl.
    + destruct (rc =? 0)%Z eqn:E; simpl; [|done].
      apply Z.eqb_eq in E as ->. intros [= <-]. auto.
    + intros [= <-]. auto.
Qed.

Lemma wait_returns_exit_code_witness :
  ∃ cfg c,
    run_events [CallWait false None None; ChildExit 3; Wake]
      (start ["false"] OutNone OutNone InNone None true) = Some cfg
    ∧ waiter cfg = Done c (Ok 3%Z).
Proof.
  destruct (run_events _ _) as [cfg|] eqn:Hrun; [|by vm_compute in Hrun].
  pose proof Hrun as Hcfg. vm_compute in Hcfg. injection Hcfg as Hcfg. subst cfg.
  assert (Hres : @Ok exn Z 3%Z ≠ Raise TimeoutExpired) by discriminate.
  destruct (wait_returns_exit_code _ _ _ _ _ _ _ _ _ _ 3%Z Hrun eq_refl Hres eq_refl)
    as [Hok _].
  eexists _, _. split; [reflexivity|].
  exact (f_equal (Done _) (Hok (or_introl eq_refl))).
Defined.




(** *** What a sink is called with *)

Lemma step_runner_of_step e cfg cfg' :
  step e cfg = Some cfg' → step_runner e (runner cfg) = Some (runner cfg').
Proof.
  unfold step. destruct (step_runner e (runner cfg)); [|done].
  destruct (step_waiter _ _ _ _); [|done]. by intros [= <-].
Qed.

(** A property of the reader ends that the child and the reader pumps
    keep is kept by every event. *)
Lemma step_runner_readers (P : reader_end → Prop) un :
  (∀ d e e', P e → child_write d e = Some e' → P e') →
  (∀ e, P e → P (close_reader e)) →
  (∀ n e e', P e → run_reader un n e = Some e' → P e') →
  ∀ ev r r',
    universal_newlines r = un ∧ P (p_stdout r) ∧ P (p_stderr r) →
    step_runner ev r = Some r' →
    universal_newlines r' = un ∧ P (p_stdout r') ∧ P (p_stderr r').
Proof.
  intros Hwrite Hclose Hread ev r r' (Hun & Hout & Herr).
  destruct ev; simpl; unfold while_running.
  - destruct (child r); [|done].
    destruct (child_write d (get_reader s r)) as [e'|] eqn:E; [|done].
    intros [= <-]. destruct s; simpl; split_and!; try done;
      (eapply Hwrite; [|exact E]; first [exact Hout|exact Herr]).
  - destruct (child r); [|done]. intros [= <-].
    destruct s; simpl; split_and!; try done; by apply Hclose.
  - destruct (child r); [|done]. by intros [= <-].
  - destruct (child r); [|done]. intros [= <-]. simpl.
    split_and!; [done|by apply Hclose..].
  - destruct (run_writer _ _); [|done]. by intros [= <-].
  - rewrite Hun. destruct (run_reader un n (get_reader s r)) as [e'|] eqn:E; [|done].
    intros [= <-]. destruct s; simpl; split_and!; try done;
      (eapply Hread; [|exact E]; first [exact Hout|exact Herr]).
  - by intros [= <-].
  - intros [= <-]. unfold terminate, send_signal. by destruct (child r).
  - intros [= <-]. unfold kill, send_signal. by destruct (child r).
  - by intros [= <-].
  - by intros [= <-].
Qed.

Lemma run_events_readers (P : reader_end → Prop) un :
  (∀ d e e', P e → child_write d e = Some e' → P e') →
  (∀ e, P e → P (close_reader e)) →
  (∀ n e e', P e → run_reader un n e = Some e' → P e') →
  ∀ tr cfg cfg',
    universal_newlines (runner cfg) = un
    ∧ P (p_stdout (runner cfg)) ∧ P (p_stderr (runner cfg)) →
    run_events tr cfg = Some cfg' →
    universal_newlines (runner cfg') = un
    ∧ P (p_stdout (runner cfg')) ∧ P (p_stderr (runner cfg')).
Proof.
  intros Hwrite Hclose Hread.
  apply (run_events_preserves
           (λ cfg, universal_newlines (runner cfg) = un
                   ∧ P (p_stdout (runner cfg)) ∧ P (p_stderr (runner cfg)))).
  intros e cfg cfg' HP Hstep%step_runner_of_step.
  by eapply step_runner_readers.
Qed.

Lemma child_write_calls d e e' :
  child_write d e = Some e' →
  r_calls e' = r_calls e
  ∧ (r_closed e' = false ∨ e' = e)
  ∧ (r_closed e = false ∨ e' = e).
Proof.
  unfold child_write. case_decide; [|intros [= <-]; auto].
  destruct (r_closed e) eqn:E; [done|]. intros [= <-]. simpl. auto.
Qed.

Lemma chunks_ok_read n e e' :
  chunks_ok e → run_reader false n e = Some e' → chunks_ok e'.
Proof.
  unfold chunks_ok, run_reader. intros Hok.
  destruct (r_task e) as [[| |]|]; try done.
  unfold stream_reader_buf, reader_round.
  destruct (pipe_readinto n (r_pending e) (r_closed e)) as [[unit rest]|] eqn:E; [|done].
  apply pipe_readinto_spec in E as (_ & _ & Hlen).
  destruct unit as [|c unit]; intros [= <-]; simpl; [done|].
  apply Forall_app. split; [done|]. constructor; [|done]. simpl in *. lia.
Qed.

(** X13: in binary mode ([universal_newlines=False]) every call of a
    sink carries at least one byte and at most the 16384 bytes of the
    buffer of the pump. *)
Theorem binary_chunks_bounded args stdout stderr stdin safe_args tr cfg s :
  run_events tr (start args stdout stderr stdin safe_args false) = Some cfg →
  Forall (λ u, (1 ≤ length u ≤ N.to_nat 16384)%nat) (r_calls (get_reader s (runner cfg))).
Proof.
  intros Hrun.
  destruct (run_events_readers chunks_ok false) with (tr := tr) (cfg' := cfg)
    (cfg := start args stdout stderr stdin safe_args false) as (_ & Hout & Herr).
  - intros d e e' Hok [Hc _]%child_write_calls. unfold chunks_ok. by rewrite Hc.
  - done.
  - apply chunks_ok_read.
  - split_and!; [done|by constructor..].
  - exact Hrun.
  - by destruct s.
Qed.

Lemma binary_chunks_bounded_witness :
  ∃ cfg,
    run_events [ChildWrite Stdout (text "abcdef"); RunReader Stdout 4;
                RunReader Stdout 9]
      (start ["cat"] OutCallable OutNone InNone None false) = Some cfg
    ∧ r_calls (p_stdout (runner cfg)) = [text "abcd"; text "ef"]
    ∧ Forall (λ u, (1 ≤ length u ≤ N.to_nat 16384)%nat)
        (r_calls (get_reader Stdout (runner cfg))).
Proof.
  destruct (run_events _ _) as [cfg|] eqn:Hrun; [|by vm_compute in Hrun].
  pose proof Hrun as Hcfg. vm_compute in Hcfg. injection Hcfg as Hcfg. subst cfg.
  eexists. split; [reflexivity|]. split; [reflexivity|].
  exact (binary_chunks_bounded _ _ _ _ _ _ _ Stdout Hrun).
Defined.

Lemma lines_ok_read n e e' :
  lines_ok e → run_reader true n e = Some e' → lines_ok e'.
Proof.
  unfold run_reader. intros Hok.
  destruct (r_task e) as [[| |]|]; try done.
  unfold stream_reader_line, reader_round.
  destruct (pipe_next_line (r_pending e) (r_closed e)) as [[unit rest]|] eqn:E; [|done].
  pose proof (pipe_next_line_spec _ _ _ _ E) as [Hsplit _].
  destruct unit as [|c unit]; intros [= <-]; [exact Hok|].
  intros pre u post; simpl. intros Hcalls Hmore.
  destruct post as [|x post _] using rev_ind.
  - apply app_inj_tail in Hcalls as [_ <-].
    unfold pipe_next_line in E.
    destruct (readline (r_pending e)) as [[l r]|] eqn:El.
    + injection E as <- <-. by eapply readline_line.
    + destruct (r_closed e); [|done]. injection E as _ <-.
      destruct Hmore as [?|[?|?]]; done.
  - rewrite app_comm_cons, app_assoc in Hcalls.
    apply app_inj_tail in Hcalls as [Hcalls _].
    apply (Hok pre u post Hcalls). right. left.
    rewrite <- Hsplit. done.
Qed.

(** X14: in text mode ([universal_newlines=True]) a sink is called with
    one line at a time: every call has its newline at the end and nowhere
    else, except that the very last call can be the unterminated rest of
    the output, and then only once the child's end of the pipe is closed
    and the pipe is empty. *)
Theorem text_calls_are_lines args stdout stderr stdin safe_args tr cfg s pre u post :
  run_events tr (start args stdout stderr stdin safe_args true) = Some cfg →
  r_calls (get_reader s (runner cfg)) = pre ++ u :: post →
  post ≠ [] ∨ r_pending (get_reader s (runner cfg)) ≠ []
  ∨ r_closed (get_reader s (runner cfg)) = false →
  ∃ body, u = body ++ [newline] ∧ Forall (λ c, c ≠ newline) body.
Proof.
  intros Hrun.
  destruct (run_events_readers lines_ok true) with (tr := tr) (cfg' := cfg)
    (cfg := start args stdout stderr stdin safe_args true) as (_ & Hout & Herr).
  - intros d e e' Hok (Hc & Hcl & Hcl')%child_write_calls p1 v p2 Hcalls Hmore.
    destruct Hcl' as [Hcl'| ->]; [|by eapply Hok].
    rewrite Hc in Hcalls. eapply Hok; [exact Hcalls|]. auto.
  - intros e Hok p1 v p2 Hcalls Hmore. simpl in *.
    eapply Hok; [exact Hcalls|]. destruct Hmore as [?|[?|?]]; auto.
  - apply lines_ok_read.
  - split_and!; [done|intros [|??] ???; done..].
  - exact Hrun.
  - destruct s; [apply Hout|apply Herr].
Qed.

Lemma text_calls_are_lines_witness :
  ∃ cfg,
    run_events [ChildWrite Stdout (text "one" ++ [newline] ++ text "tw");
                RunReader Stdout 0; ChildWrite Stdout (text "o" ++ [newline] ++ text "end");
                RunReader Stdout 0]
      (start ["cat"] OutCallable OutNone InNone None true) = Some cfg
    ∧ r_calls (get_reader Stdout (runner cfg))
      = [] ++ (text "one" ++ [newline]) :: [text "two" ++ [newline]]
    ∧ r_pending (p_stdout (runner cfg)) = text "end"
    ∧ ∃ body, text "one" ++ [newline] = body ++ [newline]
              ∧ Forall (λ c, c ≠ newline) body.
Proof.
  destruct (run_events _ _) as [cfg|] eqn:Hrun; [|by vm_compute in Hrun].
  pose proof Hrun as Hcfg. vm_compute in Hcfg. injection Hcfg as Hcfg. subst cfg.
  eexists. split; [reflexivity|]. split; [reflexivity|]. split; [reflexivity|].
  refine (text_calls_are_lines _ _ _ _ _ _ _ Stdout [] _ [text "two" ++ [newline]]
            Hrun eq_refl _).
  left. discriminate.
Defined.

(** *** run_capturing_out *)



(** *** wait does not hang on its pumps *)













(** *** Streams without a pump *)

(** X19: a stream that did not get a callable is never pumped: no sink
    is ever called for it, and if it is a pipe all the same (the caller
    passed [PIPE] itself) whatever the child writes stays in the pipe;
    [wait] does not wait for it to be read. *)
Theorem stream_without_callable_is_not_pumped
    args stdout stderr stdin safe_args un tr cfg :
  run_events tr (start args stdout stderr stdin safe_args un) = Some cfg →
  (out_is_callable stdout = false →
     _stdout_reader (runner cfg) = None
     ∧ r_calls (p_stdout (runner cfg)) = []
     ∧ r_pending (p_stdout (runner cfg)) = r_written (p_stdout (runner cfg)))
  ∧ (out_is_callable stderr = false →
     _stderr_reader (runner cfg) = None
     ∧ r_calls (p_stderr (runner cfg)) = []
     ∧ r_pending (p_stderr (runner cfg)) = r_written (p_stderr (runner cfg))).
Proof.
  intros Hrun.
  destruct (run_events_readers unpumped_ok un) with (tr := tr) (cfg' := cfg)
    (cfg := start args stdout stderr stdin safe_args un) as (_ & Hout & Herr).
  - intros d e e' Hok He Ht.
    destruct (child_write_evolves _ _ _ He) as (_ & Hsome & _).
    destruct (child_write_calls _ _ _ He) as (Hc & _). rewrite Hc. apply Hok.
    destruct (r_task e) eqn:E; [|done].
    assert (is_Some (r_task e')) as [? ?] by (apply Hsome; by eexists). congruence.
  - done.
  - intros n e e' Hok He Ht.
    destruct (run_reader_evolves _ _ _ _ He) as (_ & Hsome & _).
    unfold run_reader in He. destruct (r_task e) as [g|] eqn:E; [|done].
    assert (is_Some (r_task e')) as [? ?] by (apply Hsome; by eexists). congruence.
  - split_and!; [done|done..].
  - exact Hrun.
  - destruct (pumps_attached _ _ _ _ _ _ _ _ Hrun) as (_ & Hso & Hse).
    destruct (reachable_inv _ _ _ _ _ _ _ _ Hrun) as (_ & (_ & Hro & Hre) & _).
    split; intros Hc.
    + assert (Hnone : _stdout_reader (runner cfg) = None).
      { destruct (_stdout_reader (runner cfg)) eqn:E; [|done].
        assert (out_is_callable stdout = true) by (apply Hso; by eexists). congruence. }
      split; [done|]. destruct Hro as (Hw & _). rewrite (Hout Hnone) in Hw |- *. done.
    + assert (Hnone : _stderr_reader (runner cfg) = None).
      { destruct (_stderr_reader (runner cfg)) eqn:E; [|done].
        assert (out_is_callable stderr = true) by (apply Hse; by eexists). congruence. }
      split; [done|]. destruct Hre as (Hw & _). rewrite (Herr Hnone) in Hw |- *. done.
Qed.

Lemma stream_without_callable_is_not_pumped_witness :
  ∃ cfg c,
    run_events [CallWait true None None; ChildWrite Stdout (text "lost"); ChildExit 0; Wake]
      (start ["echo"] (OutInt (-1)) OutNone InNone None true) = Some cfg
    ∧ waiter cfg = Done c (Ok 0%Z)
    ∧ r_calls (p_stdout (runner cfg)) = []
    ∧ r_pending (p_stdout (runner cfg)) = text "lost"
    ∧ r_pending (p_stdout (runner cfg)) = r_written (p_stdout (runner cfg)).
Proof.
  destruct (run_events _ _) as [cfg|] eqn:Hrun; [|by vm_compute in Hrun].
  pose proof Hrun as Hcfg. vm_compute in Hcfg. injection Hcfg as Hcfg. subst cfg.
  destruct (stream_without_callable_is_not_pumped _ _ _ _ _ _ _ _ Hrun) as [Hout _].
  destruct (Hout eq_refl) as (_ & Hcalls & Hpending).
  eexists _, _. split; [reflexivity|]. split; [reflexivity|].
  split; [exact Hcalls|]. split; [reflexivity|exact Hpending].
Defined.

End ProcMore.

(** ** Stripping lines *)

Module TextFacts.
Import Proc ProcInv Text.

Lemma rstrip_split line :
  ∃ suffix, line = rstrip line ++ suffix ∧ Forall (λ c, is_crlf c = true) suffix.
Proof.
  induction line as [|c line (suffix & Hl & Hs)]; simpl.
  - by exists [].
  - destruct (rstrip line) as [|k kept] eqn:E.
    + simpl in Hl. subst line. destruct (is_crlf c) eqn:Ec.
      * exists (c :: suffix). split; [done|]. by constructor.
      * by exists suffix.
    + exists suffix. split; [|done]. simpl. by rewrite Hl at 1.
Qed.

Lemma rstrip_last line c : last (rstrip line) = Some c → is_crlf c = false.
Proof.
  induction line as [|d line IH]; simpl; [done|].
  destruct (rstrip line) as [|k kept] eqn:E.
  - destruct (is_crlf d) eqn:Ed; simpl; [done|]. by intros [= <-].
  - intros Hl. apply IH. by destruct kept.
Qed.

Lemma rstrip_id line :
  (∀ c, last line = Some c → is_crlf c = false) → rstrip line = line.
Proof.
  induction line as [|d line IH]; simpl; [done|]. intros Hl.
  destruct line as [|e line].
  - simpl. by rewrite (Hl d eq_refl).
  - rewrite IH; [done|]. intros c Hc. by apply Hl.
Qed.

Lemma rstrip_app_crlf line suffix :
  Forall (λ c, is_crlf c = true) suffix → rstrip (line ++ suffix) = rstrip line.
Proof.
  intros Hs. induction line as [|d line IH]; simpl.
  - induction Hs as [|c suffix Hc Hs IHs]; simpl; [done|].
    by rewrite IHs, Hc.
  - by rewrite IH.
Qed.

(** X17: [StripNL] passes on the line without the carriage returns and
    newlines at its end and with nothing else changed: the line is what is
    passed on followed by carriage returns and newlines only, what is
    passed on does not end in one, and stripping twice is stripping
    once. *)
Theorem StripNL_strips_line_end {A} (func : data → A) line :
  StripNL func line = func (rstrip line)
  ∧ (∃ suffix, line = rstrip line ++ suffix
               ∧ Forall (λ c, c = carriage_return ∨ c = newline) suffix)
  ∧ (∀ c, last (rstrip line) = Some c → c ≠ carriage_return ∧ c ≠ newline)
  ∧ StripNL (StripNL func) line = StripNL func line.
Proof.
  assert (Hcr : ∀ c, is_crlf c = true ↔ c = carriage_return ∨ c = newline).
  { intros c. unfold is_crlf. rewrite orb_true_iff, !Ascii.eqb_eq. done. }
  split_and!.
  - done.
  - destruct (rstrip_split line) as (suffix & Hl & Hs).
    exists suffix. split; [done|]. eapply Forall_impl; [exact Hs|].
    intros c. apply Hcr.
  - intros c Hc%rstrip_last.
    split; intros ->; by vm_compute in Hc.
  - unfold StripNL. f_equal. apply rstrip_id. apply rstrip_last.
Qed.

(** X18: a sink [StripNL(out.write)] into a [StringIO()] (trimmed) holds
    every line it was called with, stripped and followed by one newline;
    when the calls are complete lines without carriage returns, as a
    text-mode pump makes them from such output, the buffer is the output
    as it was. *)
Theorem stripped_lines_round_trip calls :
  stripped_into true calls = concat ((λ l, rstrip l ++ [newline]) <$> calls)
  ∧ (Forall (λ l, complete_line l ∧ Forall (λ c, c ≠ carriage_return) l) calls →
     stripped_into true calls = concat calls).
Proof.
  assert (Hgen : stripped_into true calls
                 = concat ((λ l, rstrip l ++ [newline]) <$> calls)).
  { unfold stripped_into, StripNL; simpl. unfold write_trimmed.
    cut (∀ acc, foldl (λ buf line, buf ++ rstrip line ++ [newline]) acc calls
                = acc ++ concat ((λ l, rstrip l ++ [newline]) <$> calls)).
    { intros Hc. apply (Hc []). }
    induction calls as [|l calls IH]; intros acc; simpl.
    - by rewrite app_nil_r.
    - by rewrite IH, !app_assoc. }
  split; [exact Hgen|].
  intros Hlines. rewrite Hgen. f_equal.
  clear Hgen.
  induction Hlines as [|l calls [(body & -> & Hbody) Hcr] _ IH]; [done|].
  rewrite fmap_cons. f_equal; [|exact IH]. f_equal.
  rewrite rstrip_app_crlf.
  - rewrite rstrip_id; [done|].
    intros c Hc. apply last_Some_elem_of in Hc.
    apply Forall_app in Hcr as [Hcr _].
    rewrite Forall_forall in Hbody, Hcr.
    unfold is_crlf. apply orb_false_iff. split; apply Ascii.eqb_neq; auto.
  - constructor; [|done]. by vm_compute.
Qed.

Lemma stripped_lines_round_trip_witness :
  Forall (λ l, complete_line l ∧ Forall (λ c, c ≠ carriage_return) l)
    [text "a" ++ [newline]; text "bc" ++ [newline]]
  ∧ stripped_into true [text "a" ++ [newline]; text "bc" ++ [newline]]
    = text "a" ++ [newline] ++ text "bc" ++ [newline].
Proof.
  assert (Hlines : Forall (λ l, complete_line l ∧ Forall (λ c, c ≠ carriage_return) l)
                     [text "a" ++ [newline]; text "bc" ++ [newline]]).
  { repeat constructor; try discriminate.
    - exists (text "a"). split; [reflexivity|]. repeat constructor; discriminate.
    - exists (text "bc"). split; [reflexivity|]. repeat constructor; discriminate. }
  split; [exact Hlines|].
  exact (proj2 (stripped_lines_round_trip _) Hlines).
Defined.

End TextFacts.
